(** * Sourcify injector: the verification pipeline, embedded in Rocq

    A shallow embedding of [src/server/services/Injector.ts] (and of the
    legacy scan of [src/injector.ts]): the bytecode comparison, the
    address scan, source assembly, the repository path scheme and the
    [inject] orchestrator, followed by the properties the specification
    states about them.

    Strings are sequences of 8-bit code units ([string]); numbers that the
    code computes from string lengths and [parseInt] are integer-valued, so
    a JavaScript number is an integer or [NaN]. *)

From Stdlib Require Import ZArith Lia Bool Ascii String List.
From Stdlib.Strings Require Import Byte.
From stdpp Require Import base decidable option list strings gmap fin_maps.

Local Open Scope string_scope.
Local Open Scope Z_scope.
Local Open Scope list_scope.

(* ===================================================================== *)
(** * Part I: definitions *)
(* ===================================================================== *)

(** ** The JavaScript primitives the injector relies on *)

Module JS.

(** An integer-valued JavaScript number, or [NaN]. *)
Inductive number : Type :=
| NaN
| Num (z : Z).

Definition mul (a b : number) : number :=
  match a, b with
  | Num x, Num y => Num (x * y)
  | _, _ => NaN
  end.

Definition add (a b : number) : number :=
  match a, b with
  | Num x, Num y => Num (x + y)
  | _, _ => NaN
  end.

Definition sub (a b : number) : number :=
  match a, b with
  | Num x, Num y => Num (x - y)
  | _, _ => NaN
  end.

(** [ToIntegerOrInfinity]: [NaN] becomes 0. *)
Definition toInteger (n : number) : Z :=
  match n with
  | NaN => 0
  | Num z => z
  end.

(** [s.length]. *)
Definition length (s : string) : Z := Z.of_nat (String.length s).

(** Truthiness of a string value: only the empty string is falsy. *)
Definition truthy (s : string) : bool :=
  match s with
  | EmptyString => false
  | String _ _ => true
  end.

(** Truthiness of a value that may be [null] or [undefined]. *)
Definition truthy_opt (v : option string) : bool :=
  match v with
  | None => false
  | Some s => truthy s
  end.

(** A relative index of [String.prototype.slice], resolved against the
    length: negative indices count from the end, everything is clamped
    to [0, len]. *)
Definition relative_index (len k : Z) : Z :=
  if k <? 0 then Z.max (len + k) 0 else Z.min k len.

(** [s.slice(start, end)]; [end_ = None] is an omitted [end]. *)
Definition slice (s : string) (start : number) (end_ : option number) : string :=
  let len := length s in
  let from := relative_index len (toInteger start) in
  let to := match end_ with
            | None => len
            | Some e => relative_index len (toInteger e)
            end in
  let span := Z.max (to - from) 0 in
  String.substring (Z.to_nat from) (Z.to_nat span) s.

(** White space and line terminators below code unit 256. *)
Definition is_white_space (c : ascii) : bool :=
  let n := Z.of_N (N_of_ascii c) in
  (n =? 9) || (n =? 10) || (n =? 11) || (n =? 12) || (n =? 13)
  || (n =? 32) || (n =? 160).

Fixpoint trimStart (s : string) : string :=
  match s with
  | String c t => if is_white_space c then trimStart t else s
  | EmptyString => EmptyString
  end.

(** The value of a code unit read as a digit: 0-9, then a-z or A-Z for
    10 to 35. *)
Definition digit_value (c : ascii) : option Z :=
  let n := Z.of_N (N_of_ascii c) in
  if (48 <=? n) && (n <=? 57) then Some (n - 48)
  else if (97 <=? n) && (n <=? 122) then Some (n - 87)
  else if (65 <=? n) && (n <=? 90) then Some (n - 55)
  else None.

Definition radix_digit (radix : Z) (c : ascii) : option Z :=
  match digit_value c with
  | Some d => if d <? radix then Some d else None
  | None => None
  end.

(** The longest prefix of radix digits, read as a number; [acc] is [None]
    until a first digit has been seen. *)
Fixpoint parse_digits (radix : Z) (acc : option Z) (s : string) : option Z :=
  match s with
  | EmptyString => acc
  | String c t =>
      match radix_digit radix c with
      | Some d => parse_digits radix (Some (default 0 acc * radix + d)) t
      | None => acc
      end
  end.

Definition strip_hex_prefix (s : string) : string :=
  match s with
  | String "0" (String "x" t) => t
  | String "0" (String "X" t) => t
  | _ => s
  end.

(** [parseInt(s, radix)] for an explicit radix. The value is exact, as it
    is in JavaScript for the at most four digits the injector reads. *)
Definition parseInt (s : string) (radix : Z) : number :=
  if (radix <? 2) || (36 <? radix) then NaN
  else
    let s1 := trimStart s in
    let '(sign, s2) := match s1 with
                       | String "-" t => (-1, t)
                       | String "+" t => (1, t)
                       | _ => (1, s1)
                       end in
    let s3 := if radix =? 16 then strip_hex_prefix s2 else s2 in
    match parse_digits radix None s3 with
    | None => NaN
    | Some v => Num (sign * v)
    end.

(** [s.trim()]. *)
Definition trim (s : string) : string :=
  String.rev (trimStart (String.rev (trimStart s))).

End JS.

(** ** Bytecode comparison *)

(** [trimMetadata]: the last four characters give the byte size of the
    metadata component; that many bytes and the two size bytes are cut. *)
Definition trimMetadata (bytecode : string) : string :=
  let metadataSize :=
    JS.add (JS.mul (JS.parseInt (JS.slice bytecode (JS.Num (-4)) None) 16) (JS.Num 2))
           (JS.Num 4) in
  JS.slice bytecode (JS.Num 0)
           (Some (JS.sub (JS.Num (JS.length bytecode)) metadataSize)).

Inductive MatchStatus : Type :=
| perfect
| partial.

#[export] Instance MatchStatus_eq_dec : EqDecision MatchStatus.
Proof. solve_decision. Defined.

(** [compareBytecodes]: [None] is the [null] result. *)
Definition compareBytecodes (deployedBytecode : option string)
    (compiledBytecode : string) : option MatchStatus :=
  match deployedBytecode with
  | Some deployed =>
      if JS.truthy deployed && (2 <? JS.length deployed) then
        if bool_decide (deployed = compiledBytecode) then Some perfect
        else if bool_decide (trimMetadata deployed = trimMetadata compiledBytecode)
             then Some partial
             else None
      else None
  | None => None
  end.

(** Bytecode as the callers of [compareBytecodes] supply it: what
    [getCode] resolves to and what [recompile] builds begins with [0x]; the
    empty string stands for code that is absent. *)
Definition is_bytecode (code : string) : Prop :=
  code = "" \/ String.prefix "0x" code = true.

(** ** Repository path scheme *)

(** The character class [[a-z0-9_.\/-]] under the [i] flag. *)
Definition path_char (c : ascii) : bool :=
  let n := Z.of_N (N_of_ascii c) in
  ((97 <=? n) && (n <=? 122)) || ((65 <=? n) && (n <=? 90))
  || ((48 <=? n) && (n <=? 57))
  || (n =? 95) || (n =? 46) || (n =? 47) || (n =? 45).

(** [.replace(/[^a-z0-9_.\/-]/gim, "_")]: the global flag replaces every
    code unit outside the class. *)
Fixpoint replace_outside_class (s : string) : string :=
  match s with
  | EmptyString => EmptyString
  | String c t => String (if path_char c then c else "_"%char) (replace_outside_class t)
  end.

Fixpoint skip_dots (s : string) : string :=
  match s with
  | String "."%char t => skip_dots t
  | _ => s
  end.

(** [[.]+($|\/)] anchored at the head of [s]; the result is what follows
    the match. The greedy run of dots must be followed by the end of the
    input or by a slash, which the match consumes. *)
Definition match_dots (s : string) : option string :=
  match s with
  | String "."%char t =>
      match skip_dots t with
      | EmptyString => Some EmptyString
      | String "/"%char r => Some r
      | String _ _ => None
      end
  | _ => None
  end.

(** [(^|\/)[.]+($|\/)] anchored at the head of [s]; [at_start] tells whether
    [s] is the whole input, where [^] matches. *)
Definition match_dot_segment (at_start : bool) (s : string) : option string :=
  match (if at_start then match_dots s else None) with
  | Some r => Some r
  | None =>
      match s with
      | String "/"%char t => match_dots t
      | _ => None
      end
  end.

(** [.replace(/(^|\/)[.]+($|\/)/, '_')]: the pattern has no global flag, so
    only the leftmost match is replaced. *)
Fixpoint replace_dot_segment (at_start : bool) (s : string) : string :=
  match match_dot_segment at_start s with
  | Some r => String "_"%char r
  | None =>
      match s with
      | EmptyString => EmptyString
      | String c t => String c (replace_dot_segment false t)
      end
  end.

(** The [sanitizedPath] of [storePerfectMatchData] and
    [storePartialMatchData]. *)
Definition sanitizedPath (sourcePath : string) : string :=
  replace_dot_segment true (replace_outside_class sourcePath).

(** Node's [path.join] on a POSIX host: the non-empty arguments are joined
    with a slash and the result is normalized. *)
Module NodePath.

Fixpoint split (s : string) : list string :=
  match s with
  | EmptyString => [EmptyString]
  | String c t =>
      if Ascii.eqb c "/"%char then EmptyString :: split t
      else match split t with
           | seg :: segs => String c seg :: segs
           | [] => [String c EmptyString]
           end
  end.

(** One segment of [normalizeString]; [stack] holds the segments kept so
    far, last one first. *)
Definition push_segment (allowAboveRoot : bool) (stack : list string)
    (seg : string) : list string :=
  if bool_decide (seg = "") || bool_decide (seg = ".") then stack
  else if bool_decide (seg = "..") then
    match stack with
    | top :: rest =>
        if bool_decide (top = "..")
        then (if allowAboveRoot then ".." :: stack else stack)
        else rest
    | [] => if allowAboveRoot then [".."] else []
    end
  else seg :: stack.

Definition normalizeString (path : string) (allowAboveRoot : bool) : string :=
  String.concat "/" (rev (fold_left (push_segment allowAboveRoot) (split path) [])).

Definition starts_with_slash (s : string) : bool :=
  match s with
  | String "/"%char _ => true
  | _ => false
  end.

Fixpoint ends_with_slash (s : string) : bool :=
  match s with
  | EmptyString => false
  | String c EmptyString => Ascii.eqb c "/"%char
  | String _ t => ends_with_slash t
  end.

Definition normalize (path : string) : string :=
  if bool_decide (path = "") then "."
  else
    let isAbsolute := starts_with_slash path in
    let trailingSeparator := ends_with_slash path in
    let p := normalizeString path (negb isAbsolute) in
    if bool_decide (p = "") then
      if isAbsolute then "/" else if trailingSeparator then "./" else "."
    else
      (if isAbsolute then "/" else "") +:+ p +:+ (if trailingSeparator then "/" else "").

Definition join (args : list string) : string :=
  match filter (fun a => a <> "") args with
  | [] => "."
  | parts => normalize (String.concat "/" parts)
  end.

End NodePath.

(** ** Data model *)

(** A [StringMap] object: its own properties in insertion order, which is
    the order of [for ... in] for names that are not array indices. *)
Definition StringMap : Type := list (string * string).

(** The names every plain object inherits from [Object.prototype]: a read
    [o[k]] of a name that [o] does not own finds the member there. All
    members are functions, except [__proto__], an accessor that reads as
    [Object.prototype] itself; every one of them is truthy. *)
Definition object_prototype_members : list string :=
  ["constructor"; "__defineGetter__"; "__defineSetter__"; "hasOwnProperty";
   "__lookupGetter__"; "__lookupSetter__"; "isPrototypeOf";
   "propertyIsEnumerable"; "toString"; "valueOf"; "__proto__";
   "toLocaleString"].

Definition is_prototype_member (k : string) : bool :=
  bool_decide (k ∈ object_prototype_members).

(** What a variable declared as a string holds after a read of a plain
    object: a text, or the member of [Object.prototype] of that name. *)
Inductive Content : Type :=
| Text (s : string)
| PrototypeMember (name : string).

Definition content_truthy (v : Content) : bool :=
  match v with
  | Text s => JS.truthy s
  | PrototypeMember _ => true
  end.

(** [byHash[k]] for an object with the own properties [own], all of them
    texts, and the prototype [Object.prototype]. *)
Definition read_property (own : gmap string string) (k : string)
    : option Content :=
  match own !! k with
  | Some s => Some (Text s)
  | None => if is_prototype_member k then Some (PrototypeMember k) else None
  end.

(** [byHash[k] = v] for a text [v]: the setter of [__proto__] ignores a
    value that is not an object, any other name becomes an own property. *)
Definition write_property (own : gmap string string) (k v : string)
    : gmap string string :=
  if bool_decide (k = "__proto__") then own else <[k := v]> own.

(** The object [sources] of [rearrangeSources]: its own properties in the
    order of [for ... in], and its prototype, [None] for [Object.prototype]
    and [Some f] for the function that is the member [f] of
    [Object.prototype]. The loop creates the properties in the order in
    which [for ... in] goes through the declared sources, which is then
    the order of [for ... in] on the result as well. *)
Record SourcesObject : Type := {
  own_sources : list (string * Content);
  prototype : option string
}.

(** The own property [k] of an object with the properties [m]. *)
Fixpoint get_source (m : list (string * Content)) (k : string) : option Content :=
  match m with
  | [] => None
  | (k', v) :: rest => if bool_decide (k' = k) then Some v else get_source rest k
  end.

(** [m[k] = v] on own properties: an existing property keeps its place, a
    new one goes last. *)
Fixpoint set_source (m : list (string * Content)) (k : string) (v : Content)
    : list (string * Content) :=
  match m with
  | [] => [(k, v)]
  | (k', v') :: rest =>
      if bool_decide (k' = k) then (k, v) :: rest else (k', v') :: set_source rest k v
  end.

(** The names an object whose prototype is the function [f] cannot be
    assigned: [length] and [name] are read-only on every function,
    [arguments] and [caller] have a setter that throws, and [prototype] is
    read-only on the constructor [Object]. *)
Definition refused_on (f k : string) : bool :=
  bool_decide (k ∈ ["length"; "name"; "arguments"; "caller"])
  || (bool_decide (f = "constructor") && bool_decide (k = "prototype")).

(** An entry of [metadata.sources]: optional inline content and the
    declared keccak256 digest. *)
Record SourceEntry : Type := {
  se_content : option string;
  se_keccak256 : string
}.

Record Metadata : Type := {
  compiler_version : string;
  compilationTarget : StringMap;
  sources : list (string * SourceEntry)
}.

Record RecompilationResult : Type := {
  bytecode : string;
  deployedBytecode : string;
  metadata : string
}.

Record Match : Type := {
  address : option string;
  status : option MatchStatus
}.

(** An element of [inputData.files]: a descriptor with its source set. *)
Record Source : Type := {
  source_metadata : Metadata;
  solidity : StringMap
}.

Record InputData : Type := {
  repository : string;
  chain : string;
  addresses : list (option string);   (* [None] is a [null] element *)
  files : list Source;
  inputData_bytecode : option string  (* [None] when the field is absent *)
}.

(** The errors the injector throws. *)
Inductive Error : Type :=
| MissingAddress            (* Missing address for submitted sources/metadata *)
| MissingChain              (* Missing chain name for submitted sources/metadata *)
| InvalidContent (fileName : string)        (* Invalid content for file ... *)
| SourceNotFound (fileName hash : string)   (* ... cannot be found in your upload *)
| TargetUndetermined        (* Could not determine compilation target from metadata. *)
| MetadataReferenceMissing  (* ... could not find reference to metadata file in cbor data. *)
| NotFoundError (target : StringMap) (checked : list (option string))
| CollaboratorError (who : string)          (* thrown inside web3, solc or the cbor decoder *)
| WriteError (path : string)                (* thrown by outputFileSync when the write fails *)
| TypeError.                                (* thrown by the runtime on a refused assignment or argument *)

Inductive Result (A : Type) : Type :=
| Ok (a : A)
| Throw (e : Error).
Arguments Ok {A} a.
Arguments Throw {A} e.

#[export] Instance Result_ret : MRet Result := fun A a => Ok a.
#[export] Instance Result_bind : MBind Result := fun A B f r =>
  match r with
  | Ok a => f a
  | Throw e => Throw e
  end.

(** What the compiler returns for the requested contract. *)
Record SolcContract : Type := {
  evm_bytecode_object : string;
  evm_deployedBytecode_object : string;
  contract_metadata : string
}.

(** A connected web3 instance: [eth_getCode] is [None] when the call
    rejects. *)
Record Web3 : Type := {
  eth_getCode : string -> option string
}.

(** The injector object: its registry of chains. *)
Record Injector : Type := {
  chains : string -> option Web3
}.

(** The collaborators outside the repository's sources: web3's utilities,
    the multihash encoder, the cbor decoder of the core package and the
    solc compiler. A [None] result stands for a thrown exception. *)
Class Collaborators : Type := {
  keccak256 : string -> string;
  toChecksumAddress : string -> option string;
  toChecksumAddress_truthy :
    forall a a', toChecksumAddress a = Some a' -> JS.truthy a' = true;
  hexToBytes : string -> option (list byte);
  cborDecode : list byte -> option (gmap string (list byte));
  toB58String : list byte -> string;
  solc_compile :
    string -> Metadata -> StringMap -> string -> string -> option SolcContract
}.

(** ** Effects: the observable calls of a run, in order

    [Compiled] records that [recompile] has settled on its target and
    announced the compilation in its log, which happens before the compiler
    is loaded and run: a compiler that fails to load leaves the event
    behind. The other events record the call named beside them; a [Saved]
    event is a write that succeeded. *)

Inductive Event : Type :=
| Compiled (fileName contractName : string)   (* the Recompiling entry of recompile *)
| GetCode (address : string)                  (* web3.eth.getCode *)
| Compared (deployed : option string) (compiled : string)   (* this.compareBytecodes *)
| Saved (path content : string).              (* save *)

(** A computation threads the trace of events; a throw keeps the events
    that happened before it. *)
Definition M (A : Type) : Type := list Event -> Result A * list Event.

#[export] Instance M_ret : MRet M := fun A a tr => (Ok a, tr).
#[export] Instance M_bind : MBind M := fun A B f c tr =>
  match c tr with
  | (Ok a, tr') => f a tr'
  | (Throw e, tr') => (Throw e, tr')
  end.

Definition throw {A : Type} (e : Error) : M A := fun tr => (Throw e, tr).
Definition emit (e : Event) : M unit := fun tr => (Ok tt, tr ++ [e]).
Definition lift {A : Type} (r : Result A) : M A := fun tr => (r, tr).

(** [try { c } catch (e) { handler }]. *)
Definition try_catch {A : Type} (c : M A) (handler : M A) : M A := fun tr =>
  match c tr with
  | (Ok a, tr') => (Ok a, tr')
  | (Throw _, tr') => handler tr'
  end.

Fixpoint for_each {A : Type} (body : A -> M unit) (l : list A) : M unit :=
  match l with
  | [] => mret tt
  | x :: rest => body x ;; for_each body rest
  end.

(** The file system behind [save], which is [outputFileSync] of fs-extra:
    whether a write succeeds is up to the disk, whose state during one run
    is a function of the calls so far. A write that fails throws. *)
Class FileSystem : Type := {
  writable : list Event -> string -> string -> bool
}.

(** A computation that only appends events satisfying [Q] and only throws
    errors satisfying [P]. *)
Definition behaves {A : Type} (Q : Event -> Prop) (P : Error -> Prop)
    (c : M A) : Prop :=
  forall tr, exists r evs,
    c tr = (r, tr ++ evs) /\ Forall Q evs /\ (forall e, r = Throw e -> P e).

Definition is_saved (e : Event) : Prop :=
  match e with Saved _ _ => True | _ => False end.

Definition is_compiled (e : Event) : Prop :=
  match e with Compiled _ _ => True | _ => False end.

Definition is_not_found (e : Error) : Prop :=
  match e with NotFoundError _ _ => True | _ => False end.

Definition is_write_error (e : Error) : Prop :=
  match e with WriteError _ => True | _ => False end.


Definition reads (tr : list Event) : list string :=
  omap (fun e => match e with GetCode a => Some a | _ => None end) tr.

Definition writes (tr : list Event) : list (string * string) :=
  omap (fun e => match e with Saved p c => Some (p, c) | _ => None end) tr.

(** The events of a list of writes that succeeded. *)
Definition saved_events_of (done : list (string * string)) : list Event :=
  map (fun '(path, content) => Saved path content) done.

Definition comparisons (tr : list Event) : list (option string * string) :=
  omap (fun e => match e with Compared d c => Some (d, c) | _ => None end) tr.

Definition compilations (tr : list Event) : list (string * string) :=
  omap (fun e => match e with Compiled f c => Some (f, c) | _ => None end) tr.

(** ** The injector *)

Section Injector.

Context `{Collaborators}.
Context {disk : FileSystem}.

(** *** Source assembly *)

(** [storeByHash]: the own properties of the object that indexes the
    uploaded files by the keccak hash of their contents; a later file with
    the same hash replaces an earlier one. The object is read with
    [read_property]. *)
Definition storeByHash (files : list string) : gmap string string :=
  fold_left (fun byHash file => write_property byHash (keccak256 file) file)
    files ∅.

(** The body of the loop of [rearrangeSources] for one declared file: the
    content it settles on. *)
Definition resolve_source (byHash : gmap string string) (fileName : string)
    (entry : SourceEntry) : Result Content :=
  let hash := se_keccak256 entry in
  content ← (match se_content entry with
             | Some inline =>
                 if JS.truthy inline then
                   if negb (bool_decide (keccak256 inline = hash))
                   then Throw (InvalidContent fileName)
                   else Ok (Some (Text inline))
                 else Ok (read_property byHash hash)
             | None => Ok (read_property byHash hash)
             end);
  match content with
  | Some c => if content_truthy c then Ok c else Throw (SourceNotFound fileName hash)
  | None => Throw (SourceNotFound fileName hash)
  end.

(** [sources[fileName] = content]. The name [__proto__] reaches the setter
    on [Object.prototype]: a text is ignored, an object becomes the
    prototype, and no property is created. Any other name is created or
    overwritten as an own property, unless the prototype refuses it, in
    which case the assignment throws (the class body is strict code). *)
Definition assign_source (o : SourcesObject) (fileName : string)
    (content : Content) : Result SourcesObject :=
  if bool_decide (fileName = "__proto__") then
    match content with
    | Text _ => Ok o
    | PrototypeMember f =>
        Ok {| own_sources := own_sources o;
              prototype := if bool_decide (f = "__proto__") then None else Some f |}
    end
  else
    match get_source (own_sources o) fileName, prototype o with
    | None, Some f =>
        if refused_on f fileName then Throw TypeError
        else Ok {| own_sources := set_source (own_sources o) fileName content;
                   prototype := prototype o |}
    | _, _ =>
        Ok {| own_sources := set_source (own_sources o) fileName content;
              prototype := prototype o |}
    end.

Fixpoint rearrange_loop (byHash : gmap string string)
    (declared : list (string * SourceEntry)) (acc : SourcesObject)
    : Result SourcesObject :=
  match declared with
  | [] => Ok acc
  | (fileName, entry) :: rest =>
      content ← resolve_source byHash fileName entry;
      acc' ← assign_source acc fileName content;
      rearrange_loop byHash rest acc'
  end.

Definition rearrangeSources (metadata : Metadata) (files : list string)
    : Result SourcesObject :=
  rearrange_loop (storeByHash files) (sources metadata)
    {| own_sources := []; prototype := None |}.

(** What an upload offers for a declared entry: [entry_verified] holds of a
    content with the declared digest that is the inline content or, without
    inline content, one of the uploaded files; [entry_mismatch] of an inline
    content with another digest; [entry_missing] of an entry without inline
    content whose digest no uploaded file has. *)
Definition entry_verified (files : list string) (entry : SourceEntry)
    (content : string) : Prop :=
  keccak256 content = se_keccak256 entry /\
  (se_content entry = Some content \/
   (se_content entry = None /\ content ∈ files)).

Definition entry_mismatch (entry : SourceEntry) : Prop :=
  exists content,
    se_content entry = Some content /\ keccak256 content <> se_keccak256 entry.

Definition entry_missing (files : list string) (entry : SourceEntry) : Prop :=
  se_content entry = None /\
  forall content, content ∈ files -> keccak256 content <> se_keccak256 entry.

(** A declared entry of the ordinary kind: the file is not named
    [__proto__] and the declared digest is not the name of a member of
    [Object.prototype]. The digests that [keccak256] gives and the paths of
    source files are of this kind. *)
Definition ordinary_entry (d : string * SourceEntry) : Prop :=
  d.1 <> "__proto__" /\ is_prototype_member (se_keccak256 d.2) = false.

(** *** Storing *)

(** [save], which [src/injector.ts] defines as [outputFileSync] of fs-extra
    and [Injector.ts] imports from [../../utils/Utils], a module that is
    not part of the sources at hand and is taken to export the same
    function: the write is recorded when it succeeds and throws when it
    fails. *)
Definition save (path content : string) : M unit := fun tr =>
  if writable tr path content then (Ok tt, tr ++ [Saved path content])
  else (Throw (WriteError path), tr).

(** A list of writes, in order. *)
Definition save_all (planned : list (string * string)) : M unit :=
  for_each (fun '(path, content) => save path content) planned.

Definition hex_char (n : N) : ascii :=
  match String.get (N.to_nat n) "0123456789abcdef" with
  | Some c => c
  | None => "0"%char
  end.

(** web3's [bytesToHex]: two lower-case digits per byte after [0x]. *)
Fixpoint hex_of_bytes (bytes : list byte) : string :=
  match bytes with
  | [] => EmptyString
  | b :: rest =>
      String (hex_char (Byte.to_N b / 16)%N)
        (String (hex_char (Byte.to_N b mod 16)%N) (hex_of_bytes rest))
  end.

Definition bytesToHex (bytes : list byte) : string := "0x" +:+ hex_of_bytes bytes.

(** The choice of [metadataPath] in [storePerfectMatchData]. *)
Definition metadataPath_of (cborData : gmap string (list byte)) : Result string :=
  match cborData !! "bzzr0" with
  | Some b => Ok ("/swarm/bzzr0/" +:+ JS.slice (bytesToHex b) (JS.Num 2) None)
  | None =>
      match cborData !! "bzzr1" with
      | Some b => Ok ("/swarm/bzzr1/" +:+ JS.slice (bytesToHex b) (JS.Num 2) None)
      | None =>
          match cborData !! "ipfs" with
          | Some b => Ok ("/ipfs/" +:+ toB58String b)
          | None => Throw MetadataReferenceMissing
          end
      end
  end.

Definition or_throw {A : Type} (who : string) (o : option A) : M A :=
  match o with
  | Some a => mret a
  | None => throw (CollaboratorError who)
  end.

Definition storePerfectMatchData (repository chain address : string)
    (compilationResult : RecompilationResult) (sources : StringMap) : M unit :=
  bytes ← or_throw "hexToBytes" (hexToBytes (deployedBytecode compilationResult));
  cborData ← or_throw "cborDecode" (cborDecode bytes);
  metadataPath ← lift (metadataPath_of cborData);
  let hashPath := NodePath.join [repository; metadataPath] in
  let addressPath :=
    NodePath.join [repository; "contracts"; "full_match"; chain; address;
                   "/metadata.json"] in
  save hashPath (metadata compilationResult);;
  save addressPath (metadata compilationResult);;
  for_each (fun '(sourcePath, content) =>
              let outputPath :=
                NodePath.join [repository; "contracts"; "full_match"; chain;
                               address; "sources"; sanitizedPath sourcePath] in
              save outputPath content)
           sources.

Definition storePartialMatchData (repository chain address : string)
    (compilationResult : RecompilationResult) (sources : StringMap) : M unit :=
  let addressPath :=
    NodePath.join [repository; "contracts"; "partial_match"; chain; address;
                   "/metadata.json"] in
  save addressPath (metadata compilationResult);;
  for_each (fun '(sourcePath, content) =>
              let outputPath :=
                NodePath.join [repository; "contracts"; "partial_match"; chain;
                               address; "sources"; sanitizedPath sourcePath] in
              save outputPath content)
           sources.

(** The writes of the two stores, in the order of the calls of [save]. *)
Definition full_match_files (repository chain address : string)
    (compilationResult : RecompilationResult) (sources : StringMap)
    (metadataPath : string) : list (string * string) :=
  (NodePath.join [repository; metadataPath], metadata compilationResult)
  :: (NodePath.join [repository; "contracts"; "full_match"; chain; address;
                     "/metadata.json"], metadata compilationResult)
  :: map (fun '(sourcePath, content) =>
            (NodePath.join [repository; "contracts"; "full_match"; chain;
                            address; "sources"; sanitizedPath sourcePath],
             content))
         sources.

Definition partial_match_files (repository chain address : string)
    (compilationResult : RecompilationResult) (sources : StringMap)
    : list (string * string) :=
  (NodePath.join [repository; "contracts"; "partial_match"; chain; address;
                  "/metadata.json"], metadata compilationResult)
  :: map (fun '(sourcePath, content) =>
            (NodePath.join [repository; "contracts"; "partial_match"; chain;
                            address; "sources"; sanitizedPath sourcePath],
             content))
         sources.

(** *** Matching *)

(** [Web3.utils.toChecksumAddress] on a value that may be [null]. *)
Definition checksum (a : option string) : M string :=
  or_throw "toChecksumAddress" (a ≫= toChecksumAddress).

(** [getBytecode]: wraps [eth_getCode]. *)
Definition getBytecode (web3 : Web3) (address : string) : M string :=
  address' ← checksum (Some address);
  emit (GetCode address');;
  or_throw "getCode" (eth_getCode web3 address').

(** A call of the method [compareBytecodes]. *)
Definition call_compareBytecodes (deployed : option string) (compiled : string)
    : M (option MatchStatus) :=
  emit (Compared deployed compiled);;
  mret (compareBytecodes deployed compiled).

(** The [try] block of the scan; [deployedBytecode] stays [null] when
    anything inside throws. *)
Definition read_deployed (this : Injector) (chain address : string)
    : M (option string) :=
  try_catch
    (web3 ← or_throw "chains" (chains this chain);
     code ← getBytecode web3 address;
     mret (Some code))
    (mret None).

(** What the [try] block leaves in [deployedBytecode] for a checksummed
    address, and the events it causes; neither depends on the trace so
    far. *)
Definition onChainCode (this : Injector) (chain address : string)
    : option string :=
  match read_deployed this chain address [] with
  | (Ok code, _) => code
  | (Throw _, _) => None
  end.

Definition read_events (this : Injector) (chain address : string)
    : list Event :=
  snd (read_deployed this chain address []).

(** A candidate that is a valid address and whose code compares none. *)
Definition unmatched (this : Injector) (chain compiled address : string) : Prop :=
  exists address',
    toChecksumAddress address = Some address' /\
    compareBytecodes (onChainCode this chain address') compiled = None.

Fixpoint matchBytecodeToAddress (this : Injector) (chain : string)
    (addresses : list (option string)) (compiledBytecode : string) : M Match :=
  match addresses with
  | [] => mret {| address := None; status := None |}
  | a :: rest =>
      address ← checksum a;
      deployed ← read_deployed this chain address;
      st ← call_compareBytecodes deployed compiledBytecode;
      match st with
      | Some s => mret {| address := Some address; status := Some s |}
      | None => matchBytecodeToAddress this chain rest compiledBytecode
      end
  end.

(** *** Validation *)

Fixpoint validateAddresses_loop (addresses : list (option string)) : Result unit :=
  match addresses with
  | [] => Ok tt
  | None :: _ => Throw MissingAddress
  | Some _ :: rest => validateAddresses_loop rest
  end.

Definition validateAddresses (addresses : list (option string)) : Result unit :=
  if bool_decide (List.length addresses = 0%nat) then Throw MissingAddress
  else validateAddresses_loop addresses.

Definition validateChain (chain : string) : Result unit :=
  if negb (JS.truthy chain) then Throw MissingChain else Ok tt.

(** *** Recompilation *)

(** The target [reformatMetadata] settles on: the last property of
    [compilationTarget], or two empty strings. *)
Definition reformatMetadata (metadata : Metadata) : Result (string * string) :=
  let '(fileName, contractName) :=
    fold_left (fun _ kv => kv) (compilationTarget metadata) ("", "") in
  if bool_decide (contractName = "") then Throw TargetUndetermined
  else Ok (fileName, contractName).

(** [recompile]: loading the compiler, running it and reading the contract
    out of its output are one call of the collaborator [solc_compile].
    [reformatMetadata] also deletes [compilationTarget] from the settings of
    the metadata object it is given; the elements of [files] are taken to
    be distinct objects, so that no turn of the loop of [inject] sees a
    descriptor that another turn has changed. *)
Definition recompile (metadata : Metadata) (sources : StringMap)
    : M RecompilationResult :=
  '(fileName, contractName) ← lift (reformatMetadata metadata);
  emit (Compiled fileName contractName);;
  contract ← or_throw "solc"
    (solc_compile (compiler_version metadata) metadata sources fileName contractName);
  mret {| bytecode := evm_bytecode_object contract;
          deployedBytecode := "0x" +:+ evm_deployedBytecode_object contract;
          metadata := JS.trim (contract_metadata contract) |}.

(** *** The orchestrator *)

(** The body of the loop of [inject] for one element of [files]. *)
Definition inject_source (this : Injector) (inputData : InputData)
    (source : Source) : M Match :=
  let target := compilationTarget (source_metadata source) in
  compilationResult ← recompile (source_metadata source) (solidity source);
  m ← (if JS.truthy_opt (inputData_bytecode inputData) then
         st ← call_compareBytecodes (inputData_bytecode inputData)
                (deployedBytecode compilationResult);
         a ← checksum (mjoin (head (addresses inputData)));
         mret {| address := Some a; status := st |}
       else
         matchBytecodeToAddress this (chain inputData) (addresses inputData)
           (deployedBytecode compilationResult));
  if JS.truthy_opt (address m) && bool_decide (status m = Some perfect) then
    storePerfectMatchData (repository inputData) (chain inputData)
      (default "" (address m)) compilationResult (solidity source);;
    mret m
  else if JS.truthy_opt (address m) && bool_decide (status m = Some partial) then
    storePartialMatchData (repository inputData) (chain inputData)
      (default "" (address m)) compilationResult (solidity source);;
    mret m
  else throw (NotFoundError target (addresses inputData)).

Fixpoint inject_loop (this : Injector) (inputData : InputData)
    (files : list Source) (m : Match) : M Match :=
  match files with
  | [] => mret m
  | source :: rest =>
      m' ← inject_source this inputData source;
      inject_loop this inputData rest m'
  end.

Definition inject (this : Injector) (inputData : InputData) : M Match :=
  lift (validateAddresses (addresses inputData));;
  lift (validateChain (chain inputData));;
  inject_loop this inputData (files inputData)
    {| address := None; status := None |}.

End Injector.

(** ** The legacy injector

    [src/injector.ts] has the comparison inside the loop of its scan and
    imports the trimming function and [getBytecode] from [./utils], a
    module that is not part of the sources at hand; both are parameters
    here. The imported [getBytecode] may resolve to [null] ([None]). The
    legacy scan makes no call of [compareBytecodes], so it leaves no
    [Compared] event. *)

Module Legacy.

Section Legacy.

Context `{Collaborators}.
Variable getBytecodeWithoutMetadata : string -> string.
Variable getBytecode : Web3 -> string -> M (option string).

(** The [try] block of the legacy scan. *)
Definition read_deployed (this : Injector) (chain address : string)
    : M (option string) :=
  try_catch
    (web3 ← or_throw "chains" (chains this chain);
     getBytecode web3 address)
    (mret None).

Fixpoint matchBytecodeToAddress (this : Injector) (chain : string)
    (addresses : list (option string)) (compiledBytecode : string) : M Match :=
  match addresses with
  | [] => mret {| address := None; status := None |}
  | a :: rest =>
      address ← checksum a;
      deployed ← read_deployed this chain address;
      match deployed with
      | Some deployedBytecode =>
          if JS.truthy deployedBytecode && (2 <? JS.length deployedBytecode) then
            if bool_decide (deployedBytecode = compiledBytecode) then
              mret {| address := Some address; status := Some perfect |}
            else if bool_decide (getBytecodeWithoutMetadata deployedBytecode
                                 = getBytecodeWithoutMetadata compiledBytecode) then
              mret {| address := Some address; status := Some partial |}
            else matchBytecodeToAddress this chain rest compiledBytecode
          else matchBytecodeToAddress this chain rest compiledBytecode
      | None => matchBytecodeToAddress this chain rest compiledBytecode
      end
  end.

End Legacy.

End Legacy.

(** The current [getBytecode], typed as the one the legacy file imports. *)
Definition getBytecode_as_imported `{Collaborators} (web3 : Web3)
    (address : string) : M (option string) :=
  code ← getBytecode web3 address; mret (Some code).

(** A trace without its [Compared] events. *)
Fixpoint without_comparisons (tr : list Event) : list Event :=
  match tr with
  | [] => []
  | Compared _ _ :: rest => without_comparisons rest
  | e :: rest => e :: without_comparisons rest
  end.

(** ** A small instance of the collaborators

    Used to run the definitions on concrete inputs: the digest of a text is
    the text behind [0x], every non-empty string is an address in checksum
    form, the compiler returns one fixed contract, the code [0x] has no
    bytes and any other code two, and the decoded trailer holds the bytes
    under [ipfs] unless there are none. *)

Module Demo.

Definition contract : SolcContract :=
  {| evm_bytecode_object := "6000";
     evm_deployedBytecode_object := "60000000";
     contract_metadata := "{}" |}.

Definition checksum_form (a : string) : option string :=
  if JS.truthy a then Some a else None.

#[export] Instance collaborators : Collaborators.
Proof.
  refine {| keccak256 := fun s => "0x" +:+ s;
            toChecksumAddress := checksum_form;
            toChecksumAddress_truthy := _;
            hexToBytes := fun code =>
              Some (if bool_decide (code = "0x") then [] else [Byte.x12; Byte.x20]);
            cborDecode := fun bytes =>
              Some (match bytes with [] => ∅ | _ => {[ "ipfs" := bytes ]} end);
            toB58String := hex_of_bytes;
            solc_compile := fun _ _ _ _ _ => Some contract |}.
  intros a a'. unfold checksum_form.
  destruct (JS.truthy a) eqn:E; [|discriminate].
  intros [= <-]. exact E.
Defined.

(** A disk on which every write succeeds. *)
#[export] Instance file_system : FileSystem := {| writable := fun _ _ _ => true |}.

(** One chain, [1]; address [0xA] holds code that differs from the
    contract in its trailer only, [0xB] holds the contract's code, reads
    of [0xC] reject and every other address is empty. *)
Definition web3 : Web3 :=
  {| eth_getCode := fun a =>
       if bool_decide (a = "0xA") then Some "0x6000aa0001"
       else if bool_decide (a = "0xB") then Some "0x60000000"
       else if bool_decide (a = "0xC") then None
       else Some "0x" |}.

Definition injector : Injector :=
  {| chains := fun c => if bool_decide (c = "1") then Some web3 else None |}.

Definition descriptor : Metadata :=
  {| compiler_version := "0.6.0";
     compilationTarget := [("A.sol", "A")];
     sources := [("A.sol", {| se_content := None; se_keccak256 := "0xcontract A {}" |})] |}.

Definition source : Source :=
  {| source_metadata := descriptor; solidity := [("A.sol", "contract A {}")] |}.

End Demo.

(** ** Metadata selection

    [findMetadataFiles] keeps, in upload order, the files that parse as JSON
    and whose [language] is Solidity. [JSON.parse] and the property access
    are parameters: [JSON_parse] is [None] when parsing throws,
    [language_of] is [None] when the parsed value has no string under
    [language] or the access throws; both cases are swallowed by the
    [try] block. *)

Inductive SelectionError : Type :=
| MetadataFileNotFound.   (* Metadata file not found. Did you include "metadata.json"? *)

Section MetadataSelector.

Context {Json : Type}.
Variable JSON_parse : string -> option Json.
Variable language_of : Json -> option string.

(** One turn of the loop: [metadataFiles.push(m)] when the file qualifies. *)
Definition select_file (metadataFiles : list Json) (file : string) : list Json :=
  match JSON_parse file with
  | Some m =>
      if bool_decide (language_of m = Some "Solidity")
      then metadataFiles ++ [m]
      else metadataFiles
  | None => metadataFiles
  end.

Definition findMetadataFiles (files : list string)
    : SelectionError + list Json :=
  let metadataFiles := fold_left select_file files [] in
  if bool_decide (List.length metadataFiles = 0%nat)
  then inl MetadataFileNotFound
  else inr metadataFiles.

(** A file that the selection keeps, with the document it parses to. *)
Definition is_metadata (file : string) : option Json :=
  m ← JSON_parse file;
  if bool_decide (language_of m = Some "Solidity") then Some m else None.

End MetadataSelector.

(** ** The legacy pipeline

    [inject] of [src/injector.ts] takes the raw uploaded files: it selects
    the metadata files, assembles the sources of each, recompiles, scans
    and stores under the legacy layout, and returns the saved addresses.
    Its [recompile], [getBytecode] and trimming function come from
    [./utils], a module that is not part of the sources at hand, and are
    parameters, as are the JSON parser and the access to [language]. The
    assembled sources may hold a member of [Object.prototype] in place of a
    text; what [outputFileSync] makes of such a value depends on the
    runtime and is the parameter [member_text]: the text it writes, or
    [None] when it throws. The no-match error has the text of
    [NotFoundError] and is written with that constructor. *)

Module LegacyInjector.

Inductive Outcome : Type :=
| Returned (savedAddresses : list string)
| Threw (e : Error)
| ThrewSelection (e : SelectionError).

Section LegacyInjector.

Context `{Collaborators}.
Context {disk : FileSystem}.
Variable getBytecodeWithoutMetadata : string -> string.
Variable getBytecode : Web3 -> string -> M (option string).
Variable JSON_parse : string -> option Metadata.
Variable language_of : Metadata -> option string.
Variable recompile : Metadata -> SourcesObject -> M RecompilationResult.
Variable member_text : string -> option string.

(** [save(outputPath, sources[sourcePath])]. *)
Definition save_content (path : string) (content : Content) : M unit :=
  match content with
  | Text s => save path s
  | PrototypeMember name =>
      match member_text name with
      | Some s => save path s
      | None => throw TypeError
      end
  end.

Definition storePerfectMatchData (repository chain address : string)
    (compilationResult : RecompilationResult) (sources : SourcesObject) : M unit :=
  bytes ← or_throw "hexToBytes" (hexToBytes (deployedBytecode compilationResult));
  cborData ← or_throw "cborDecode" (cborDecode bytes);
  metadataPath ← lift (metadataPath_of cborData);
  let hashPath := NodePath.join [repository; metadataPath] in
  let addressPath :=
    NodePath.join [repository; "contract"; chain; address; "/metadata.json"] in
  save hashPath (metadata compilationResult);;
  save addressPath (metadata compilationResult);;
  for_each (fun '(sourcePath, content) =>
              let outputPath :=
                NodePath.join [repository; "contract"; chain; address;
                               "sources"; sanitizedPath sourcePath] in
              save_content outputPath content)
           (own_sources sources).

Definition storePartialMatchData (repository chain address : string)
    (compilationResult : RecompilationResult) (sources : SourcesObject) : M unit :=
  let addressPath :=
    NodePath.join [repository; "partial_matches"; chain; address;
                   "/metadata.json"] in
  save addressPath (metadata compilationResult);;
  for_each (fun '(sourcePath, content) =>
              let outputPath :=
                NodePath.join [repository; "partial_matches"; chain; address;
                               "sources"; sanitizedPath sourcePath] in
              save_content outputPath content)
           (own_sources sources).

(** The body of the loop of [inject] for one metadata file. *)
Definition inject_metadata (this : Injector) (repository chain : string)
    (addresses : list (option string)) (files : list string)
    (metadata : Metadata) (savedAddresses : list string) : M (list string) :=
  sources ← lift (rearrangeSources metadata files);
  let target := compilationTarget metadata in
  compilationResult ← recompile metadata sources;
  m ← Legacy.matchBytecodeToAddress getBytecodeWithoutMetadata getBytecode
         this chain addresses (deployedBytecode compilationResult);
  if JS.truthy_opt (address m) && bool_decide (status m = Some perfect) then
    storePerfectMatchData repository chain (default "" (address m))
      compilationResult sources;;
    mret (savedAddresses ++ [default "" (address m)])
  else if JS.truthy_opt (address m) && bool_decide (status m = Some partial) then
    storePartialMatchData repository chain (default "" (address m))
      compilationResult sources;;
    mret (savedAddresses ++ [default "" (address m)])
  else throw (NotFoundError target addresses).

Fixpoint inject_loop (this : Injector) (repository chain : string)
    (addresses : list (option string)) (files : list string)
    (metadataFiles : list Metadata) (savedAddresses : list string)
    : M (list string) :=
  match metadataFiles with
  | [] => mret savedAddresses
  | metadata :: rest =>
      saved ← inject_metadata this repository chain addresses files metadata
                 savedAddresses;
      inject_loop this repository chain addresses files rest saved
  end.

Definition inject (this : Injector) (repository chain : string)
    (addresses : list (option string)) (files : list string)
    (tr : list Event) : Outcome * list Event :=
  match validateAddresses addresses with
  | Throw e => (Threw e, tr)
  | Ok _ =>
      match validateChain chain with
      | Throw e => (Threw e, tr)
      | Ok _ =>
          match findMetadataFiles JSON_parse language_of files with
          | inl e => (ThrewSelection e, tr)
          | inr metadataFiles =>
              match inject_loop this repository chain addresses files
                      metadataFiles [] tr with
              | (Ok savedAddresses, tr') => (Returned savedAddresses, tr')
              | (Throw e, tr') => (Threw e, tr')
              end
          end
      end
  end.

End LegacyInjector.

End LegacyInjector.

(** A toy parser for running the legacy pipeline: the text [{sol}] reads
    as the demonstration descriptor, nothing else parses, and every
    document is in Solidity. *)
Module DemoLegacy.

Definition parse (file : string) : option Metadata :=
  if bool_decide (file = "{sol}") then Some Demo.descriptor else None.

Definition language (m : Metadata) : option string := Some "Solidity".

(** The texts among the properties of an object. *)
Definition texts (o : SourcesObject) : StringMap :=
  omap (fun '(name, content) =>
          match content with
          | Text s => Some (name, s)
          | PrototypeMember _ => None
          end)
       (own_sources o).

Definition inject : Injector -> string -> string -> list (option string) ->
    list string -> list Event -> LegacyInjector.Outcome * list Event :=
  LegacyInjector.inject (H := Demo.collaborators) (disk := Demo.file_system)
    trimMetadata (getBytecode_as_imported (H := Demo.collaborators))
    parse language
    (fun metadata o => recompile (H := Demo.collaborators) metadata (texts o))
    (fun _ => None).

End DemoLegacy.

(** A run of [k] dots. *)
Fixpoint dots (k : nat) : string :=
  match k with
  | O => EmptyString
  | S k' => String "."%char (dots k')
  end.

(** The events a scan may cause: reads and comparisons. *)
Definition is_scan_event (e : Event) : Prop :=
  match e with
  | GetCode _ | Compared _ _ => True
  | _ => False
  end.

(** The events before the store of a turn of [inject]: anything but a
    save. *)
Definition is_not_saved (e : Event) : Prop :=
  match e with
  | Saved _ _ => False
  | _ => True
  end.

(* ===================================================================== *)
(** * Part II: properties *)
(* ===================================================================== *)

(** ** Strings *)

Lemma substring_length_le (s : string) (n m : nat) :
  (String.length (String.substring n m s) <= String.length s)%nat.
Proof.
  revert n m. induction s as [|c s IH]; intros [|n] [|m]; simpl; try lia.
  - specialize (IH 0%nat m). lia.
  - specialize (IH n 0%nat). lia.
  - specialize (IH n (S m)). lia.
Qed.

Lemma substring_head_prefix (s : string) (m : nat) :
  String.prefix (String.substring 0 m s) s = true.
Proof.
  revert m. induction s as [|c s IH]; intros [|m]; simpl; try reflexivity.
  destruct (ascii_dec c c) as [_|Hne]; [apply IH | congruence].
Qed.

Lemma substring_whole (s : string) : String.substring 0 (String.length s) s = s.
Proof. induction s as [|c s IH]; simpl; [reflexivity | now rewrite IH]. Qed.

Lemma truthy_length (s : string) : JS.truthy s = true <-> 0 < JS.length s.
Proof. unfold JS.length. destruct s; simpl; split; (lia || congruence || reflexivity). Qed.

(** ** Bytecode comparison *)

(** [trimMetadata] always cuts at the head of the string: the result is the
    first [k] characters for some [k]. *)
Lemma trimMetadata_is_head (bytecode : string) :
  exists k, trimMetadata bytecode = String.substring 0 k bytecode.
Proof.
  unfold trimMetadata, JS.slice.
  assert (Hfrom : JS.relative_index (JS.length bytecode) (JS.toInteger (JS.Num 0)) = 0).
  { unfold JS.relative_index, JS.length; simpl. lia. }
  rewrite Hfrom. simpl Z.to_nat. eauto.
Qed.

(** The cut when the declared size is a number: the end index
    [length - size] is clamped, and counted from the end when negative. *)
Lemma trimMetadata_declared (bytecode : string) (n : Z) :
  JS.parseInt (JS.slice bytecode (JS.Num (-4)) None) 16 = JS.Num n ->
  trimMetadata bytecode =
    String.substring 0
      (Z.to_nat (JS.relative_index (JS.length bytecode)
                   (JS.length bytecode - (n * 2 + 4))))
      bytecode.
Proof.
  intros Hn. unfold trimMetadata. rewrite Hn. cbn [JS.mul JS.add JS.sub].
  unfold JS.slice. cbn [JS.toInteger].
  assert (Hfrom : JS.relative_index (JS.length bytecode) 0 = 0).
  { unfold JS.relative_index, JS.length; simpl. lia. }
  rewrite Hfrom.
  set (to := JS.relative_index _ _).
  assert (Hto : 0 <= to).
  { subst to. unfold JS.relative_index, JS.length.
    destruct (Z.ltb_spec (Z.of_nat (String.length bytecode) - (n * 2 + 4)) 0); lia. }
  replace (Z.max (to - 0) 0) with to by lia. reflexivity.
Qed.

Lemma compareBytecodes_long (deployed compiled : string) :
  2 < JS.length deployed ->
  compareBytecodes (Some deployed) compiled =
    if bool_decide (deployed = compiled) then Some perfect
    else if bool_decide (trimMetadata deployed = trimMetadata compiled)
         then Some partial else None.
Proof.
  intros Hlen. unfold compareBytecodes.
  assert (Ht : JS.truthy deployed = true) by (apply truthy_length; lia).
  rewrite Ht. apply Z.ltb_lt in Hlen. rewrite Hlen. reflexivity.
Qed.

Lemma compareBytecodes_short (deployed compiled : string) :
  JS.length deployed <= 2 -> compareBytecodes (Some deployed) compiled = None.
Proof.
  intros Hlen. unfold compareBytecodes.
  apply Z.ltb_ge in Hlen. rewrite Hlen, andb_false_r. reflexivity.
Qed.

(** Code that is empty or begins with [0x] is longer than two characters
    exactly when it is neither empty nor the sentinel [0x]. *)
Lemma is_bytecode_length (code : string) :
  is_bytecode code -> (2 < JS.length code <-> code <> "" /\ code <> "0x").
Proof.
  unfold is_bytecode, JS.length. intros [->|Hp].
  - simpl. split; [lia | intros [Hne _]; congruence].
  - apply String.prefix_correct in Hp.
    destruct code as [|c0 [|c1 rest]]; simpl in Hp; try discriminate.
    injection Hp as -> ->.
    destruct rest as [|c2 rest]; simpl.
    + split; [lia | intros [_ Hne]; congruence].
    + split; [intros _; split; discriminate | lia].
Qed.

(** C1. On bytecode as the callers supply it, empty or beginning with
    [0x], the comparison is none when there is no deployed code ([null]),
    when it is empty and when it is the empty-code sentinel [0x]. For any
    other deployed code it is perfect exactly when deployed equals
    compiled, so comparing a code with itself is perfect; partial exactly
    when the two differ and their trimmed forms are equal; and none
    otherwise, that is exactly when the trimmed forms differ too. *)
Theorem compareBytecodes_on_bytecode (deployed compiled : string) :
  is_bytecode deployed ->
  compareBytecodes None compiled = None /\
  (deployed = "" \/ deployed = "0x" ->
     compareBytecodes (Some deployed) compiled = None) /\
  (deployed <> "" -> deployed <> "0x" ->
     compareBytecodes (Some deployed) deployed = Some perfect /\
     (compareBytecodes (Some deployed) compiled = Some perfect
        <-> deployed = compiled) /\
     (compareBytecodes (Some deployed) compiled = Some partial
        <-> deployed <> compiled /\ trimMetadata deployed = trimMetadata compiled) /\
     (compareBytecodes (Some deployed) compiled = None
        <-> deployed <> compiled /\ trimMetadata deployed <> trimMetadata compiled)).
Proof.
  intros Hcode. split; [reflexivity|]. split.
  - intros [-> | ->]; apply compareBytecodes_short; unfold JS.length; simpl; lia.
  - intros Hne Hx.
    assert (Hlen : 2 < JS.length deployed)
      by (apply (is_bytecode_length _ Hcode); split; assumption).
    rewrite !(compareBytecodes_long _ _ Hlen).
    repeat case_bool_decide; repeat split; intros; try congruence; tauto.
Qed.

Lemma compareBytecodes_on_bytecode_witness :
  compareBytecodes (Some "0x6000aa0001") "0x6000aa0001" = Some perfect /\
  (compareBytecodes (Some "0x6000aa0001") "0x60000000" = Some partial
   <-> "0x6000aa0001" <> "0x60000000"
       /\ trimMetadata "0x6000aa0001" = trimMetadata "0x60000000").
Proof.
  assert (Hcode : is_bytecode "0x6000aa0001") by (right; reflexivity).
  assert (Hne : "0x6000aa0001" <> "") by discriminate.
  assert (Hx : "0x6000aa0001" <> "0x") by discriminate.
  destruct (proj2 (proj2 (compareBytecodes_on_bytecode
              "0x6000aa0001" "0x60000000" Hcode)) Hne Hx)
    as (Hself & _ & Hpartial & _).
  exact (conj Hself Hpartial).
Defined.

(** C2. [trimMetadata] is total and returns a head of its input, so never
    more characters than the input has, whatever size the last two bytes
    declare. The comparison, however, does not treat an underflow as none.
    The codes [0x6001ffff] and [0x6002ffff] both declare a trailer of 65535
    bytes, far more than the ten characters they have; both trim to the
    empty string, and the pair compares partial although the two differ in
    their instructions, where the description of [compareBytecodes] has
    codes that do not match compare as [null]. *)
Theorem compareBytecodes_underflow_partial :
  (forall bytecode,
     (String.length (trimMetadata bytecode) <= String.length bytecode)%nat /\
     String.prefix (trimMetadata bytecode) bytecode = true) /\
  JS.parseInt (JS.slice "0x6001ffff" (JS.Num (-4)) None) 16 = JS.Num 65535 /\
  JS.parseInt (JS.slice "0x6002ffff" (JS.Num (-4)) None) 16 = JS.Num 65535 /\
  JS.length "0x6001ffff" < 2 * 65535 + 4 /\
  trimMetadata "0x6001ffff" = "" /\
  trimMetadata "0x6002ffff" = "" /\
  compareBytecodes (Some "0x6001ffff") "0x6002ffff" = Some partial.
Proof.
  split.
  - intros bytecode. destruct (trimMetadata_is_head bytecode) as [k Hk].
    rewrite Hk. split; [apply substring_length_le | apply substring_head_prefix].
  - repeat split; vm_compute; reflexivity.
Qed.

(** ** The address scan *)

Ltac run_monad :=
  unfold mbind, M_bind, mret, M_ret, throw, emit, lift, or_throw, try_catch;
  simpl.

Section Matcher.

Context `{Collaborators}.
Variable this : Injector.
Variable chain : string.

(** The [try] block never throws, and what it yields and emits does not
    depend on the events so far. *)
Lemma read_deployed_frame (a : string) (tr : list Event) :
  read_deployed this chain a tr
  = (Ok (onChainCode this chain a), tr ++ read_events this chain a).
Proof.
  unfold onChainCode, read_events, read_deployed, getBytecode, checksum.
  run_monad.
  destruct (chains this chain) as [web3|]; simpl;
    [|now rewrite app_nil_r].
  destruct (toChecksumAddress a) as [a'|]; simpl;
    [|now rewrite app_nil_r].
  destruct (eth_getCode web3 a'); reflexivity.
Qed.

Lemma read_events_reads (a : string) :
  reads (read_events this chain a)
  = match chains this chain, toChecksumAddress a with
    | Some _, Some a' => [a']
    | _, _ => []
    end.
Proof.
  unfold read_events, read_deployed, getBytecode, checksum. run_monad.
  destruct (chains this chain) as [web3|]; simpl; [|reflexivity].
  destruct (toChecksumAddress a) as [a'|]; simpl; [|reflexivity].
  destruct (eth_getCode web3 a'); reflexivity.
Qed.

(** The events of one turn of the loop for a checksummed candidate. *)
Lemma scan_step (a a' : string) (rest : list (option string))
    (compiled : string) (tr : list Event) :
  toChecksumAddress a = Some a' ->
  matchBytecodeToAddress this chain (Some a :: rest) compiled tr
  = let tr' := tr ++ read_events this chain a'
                  ++ [Compared (onChainCode this chain a') compiled] in
    match compareBytecodes (onChainCode this chain a') compiled with
    | Some s => (Ok {| address := Some a'; status := Some s |}, tr')
    | None => matchBytecodeToAddress this chain rest compiled tr'
    end.
Proof.
  intros Ha. cbn [matchBytecodeToAddress].
  unfold checksum, call_compareBytecodes.
  unfold mbind at 1, M_bind at 1. cbn [mbind option_bind]. rewrite Ha.
  unfold or_throw at 1, mret at 1, M_ret at 1.
  unfold mbind at 1, M_bind at 1. rewrite read_deployed_frame.
  run_monad. rewrite <- app_assoc.
  destruct (compareBytecodes _ compiled); reflexivity.
Qed.

Lemma scan_invalid (a : option string) (rest : list (option string))
    (compiled : string) (tr : list Event) :
  a ≫= toChecksumAddress = None ->
  matchBytecodeToAddress this chain (a :: rest) compiled tr
  = (Throw (CollaboratorError "toChecksumAddress"), tr).
Proof.
  intros Ha. cbn [matchBytecodeToAddress]. unfold checksum.
  unfold mbind at 1, M_bind at 1. rewrite Ha. reflexivity.
Qed.

(** Scanning candidates that all compare none ends without a match. *)
Lemma scan_all_unmatched (compiled : string) (addrs : list string)
    (tr : list Event) :
  Forall (unmatched this chain compiled) addrs ->
  exists evs,
    matchBytecodeToAddress this chain (Some <$> addrs) compiled tr
    = (Ok {| address := None; status := None |}, tr ++ evs)
    /\ (List.length (reads evs) <= List.length addrs)%nat
    /\ (forall r, r ∈ reads evs ->
          exists x x', x ∈ addrs /\ toChecksumAddress x = Some x'
                       /\ toChecksumAddress x' = Some r).
Proof.
  intros Hall. revert tr.
  induction Hall as [|a addrs (a' & Ha & Hnone) _ IH]; intros tr.
  - exists []. rewrite app_nil_r. repeat split; simpl; [lia|].
    intros r Hr. inversion Hr.
  - rewrite fmap_cons, (scan_step _ _ _ _ _ Ha). cbn zeta. rewrite Hnone.
    destruct (IH (tr ++ read_events this chain a'
                     ++ [Compared (onChainCode this chain a') compiled]))
      as (evs & Hrun & Hlen & Hin).
    exists ((read_events this chain a'
              ++ [Compared (onChainCode this chain a') compiled]) ++ evs).
    rewrite Hrun, !app_assoc. split; [reflexivity|].
    unfold reads in *. rewrite !omap_app. fold (reads (read_events this chain a')).
    rewrite read_events_reads. simpl omap at 2. rewrite app_nil_r.
    split.
    + rewrite length_app. cbn [List.length].
      destruct (chains this chain), (toChecksumAddress a'); simpl; lia.
    + intros r [Hr|Hr]%elem_of_app.
      * exists a, a'. split; [left|]. split; [exact Ha|].
        destruct (chains this chain), (toChecksumAddress a');
          try (inversion Hr; fail).
        apply list_elem_of_singleton in Hr. now subst.
      * destruct (Hin r Hr) as (x & x' & Hx & Hcx & Hcx').
        exists x, x'. split; [now right|]. now split.
Qed.

Lemma scan_first_match (compiled : string) (before : list string)
    (a a' : string) (s : MatchStatus) (tr : list Event) :
  Forall (unmatched this chain compiled) before ->
  toChecksumAddress a = Some a' ->
  compareBytecodes (onChainCode this chain a') compiled = Some s ->
  exists evs,
    (forall after,
       matchBytecodeToAddress this chain (Some <$> before ++ a :: after)
         compiled tr
       = (Ok {| address := Some a'; status := Some s |}, tr ++ evs))
    /\ (List.length (reads evs) <= List.length before + 1)%nat
    /\ (forall r, r ∈ reads evs ->
          exists x x', x ∈ before ++ [a] /\ toChecksumAddress x = Some x'
                       /\ toChecksumAddress x' = Some r).
Proof.
  intros Hall Ha Hs. revert tr.
  induction Hall as [|b before (b' & Hb & Hnone) _ IH]; intros tr.
  - exists (read_events this chain a'
             ++ [Compared (onChainCode this chain a') compiled]).
    split; [|split].
    + intros after. simpl app. rewrite fmap_cons, (scan_step _ _ _ _ _ Ha).
      cbn zeta. rewrite Hs. reflexivity.
    + unfold reads. rewrite omap_app. fold (reads (read_events this chain a')).
      rewrite read_events_reads, length_app. simpl.
      destruct (chains this chain), (toChecksumAddress a'); simpl; lia.
    + unfold reads. rewrite omap_app. fold (reads (read_events this chain a')).
      rewrite read_events_reads. simpl omap. rewrite app_nil_r.
      intros r Hr. exists a, a'. split; [left|]. split; [exact Ha|].
      destruct (chains this chain), (toChecksumAddress a');
        try (inversion Hr; fail).
      apply list_elem_of_singleton in Hr. now subst.
  - destruct (IH (tr ++ read_events this chain b'
                     ++ [Compared (onChainCode this chain b') compiled]))
      as (evs & Hrun & Hlen & Hin).
    exists ((read_events this chain b'
              ++ [Compared (onChainCode this chain b') compiled]) ++ evs).
    split; [|split].
    + intros after. rewrite <- app_comm_cons, fmap_cons.
      rewrite (scan_step _ _ _ _ _ Hb). cbn zeta. rewrite Hnone.
      rewrite Hrun, !app_assoc. reflexivity.
    + unfold reads in *. rewrite !omap_app.
      fold (reads (read_events this chain b')).
      rewrite read_events_reads, !length_app. cbn [List.length omap].
      destruct (chains this chain), (toChecksumAddress b'); simpl; lia.
    + unfold reads in *. rewrite !omap_app.
      fold (reads (read_events this chain b')).
      rewrite read_events_reads. simpl omap at 2. rewrite app_nil_r.
      intros r [Hr|Hr]%elem_of_app.
      * exists b, b'. split; [left|]. split; [exact Hb|].
        destruct (chains this chain), (toChecksumAddress b');
          try (inversion Hr; fail).
        apply list_elem_of_singleton in Hr. now subst.
      * destruct (Hin r Hr) as (x & x' & Hx & Hcx & Hcx').
        exists x, x'. split; [now right|]. now split.
Qed.

End Matcher.

(** ** Frames of the monadic operations *)

Section Frames.

Context {A B : Type} (Q : Event -> Prop) (P : Error -> Prop).

Lemma behaves_ret (a : A) : behaves Q P (mret a).
Proof.
  intros tr. exists (Ok a), []. rewrite app_nil_r.
  repeat split; [constructor | discriminate].
Qed.

Lemma behaves_throw (e : Error) : P e -> behaves Q P (throw e : M A).
Proof.
  intros He tr. exists (Throw e), []. rewrite app_nil_r.
  repeat split; [constructor | now intros ? [= <-]].
Qed.

Lemma behaves_lift (r : Result A) :
  (forall e, r = Throw e -> P e) -> behaves Q P (lift r).
Proof.
  intros Hr tr. exists r, []. rewrite app_nil_r.
  repeat split; [constructor | exact Hr].
Qed.

Lemma behaves_emit (e : Event) : Q e -> behaves Q P (emit e).
Proof.
  intros He tr. exists (Ok tt), [e].
  repeat split; [now repeat constructor | discriminate].
Qed.

Lemma behaves_or_throw (who : string) (o : option A) :
  P (CollaboratorError who) -> behaves Q P (or_throw who o).
Proof.
  intros HP. destruct o; [apply behaves_ret | now apply behaves_throw].
Qed.

Lemma behaves_bind (c : M A) (f : A -> M B) :
  behaves Q P c -> (forall a, behaves Q P (f a)) -> behaves Q P (c ≫= f).
Proof.
  intros Hc Hf tr. destruct (Hc tr) as (r & evs & Hrun & HQ & HP).
  unfold mbind, M_bind. rewrite Hrun. destruct r as [a|e].
  - destruct (Hf a (tr ++ evs)) as (r' & evs' & Hrun' & HQ' & HP').
    exists r', (evs ++ evs'). rewrite Hrun', app_assoc.
    repeat split; [now apply Forall_app | exact HP'].
  - exists (Throw e), evs. repeat split; [exact HQ|].
    intros e' [= <-]. now apply HP.
Qed.

End Frames.

Lemma behaves_for_each {A : Type} (Q : Event -> Prop) (P : Error -> Prop)
    (body : A -> M unit) (l : list A) :
  (forall x, behaves Q P (body x)) -> behaves Q P (for_each body l).
Proof.
  intros Hbody. induction l as [|x l IH]; simpl.
  - apply behaves_ret.
  - apply behaves_bind; [apply Hbody | intros _; exact IH].
Qed.

Lemma behaves_weaken {A : Type} (Q Q' : Event -> Prop) (P P' : Error -> Prop)
    (c : M A) :
  (forall e, Q e -> Q' e) -> (forall e, P e -> P' e) ->
  behaves Q P c -> behaves Q' P' c.
Proof.
  intros HQ HP Hc tr. destruct (Hc tr) as (r & evs & Hrun & HQ0 & HP0).
  exists r, evs. repeat split; [exact Hrun | | now auto].
  eapply Forall_impl; [exact HQ0 | exact HQ].
Qed.

(** ** Storing and recompiling *)

Lemma behaves_save {disk : FileSystem} (Q : Event -> Prop) (P : Error -> Prop)
    (path content : string) :
  Q (Saved path content) -> P (WriteError path) ->
  behaves Q P (save path content).
Proof.
  intros HQ HP tr. unfold save. destruct (writable tr path content).
  - exists (Ok tt), [Saved path content].
    repeat split; [now repeat constructor | discriminate].
  - exists (Throw (WriteError path)), []. rewrite app_nil_r.
    repeat split; [constructor | now intros ? [= <-]].
Qed.

(** The partial store only saves, and throws nothing but the error of a
    failed write. *)
Lemma storePartialMatchData_behaves {disk : FileSystem}
    (repository chain address : string)
    (cr : RecompilationResult) (srcs : StringMap) :
  behaves is_saved is_write_error
    (storePartialMatchData repository chain address cr srcs).
Proof.
  unfold storePartialMatchData.
  apply behaves_bind; [now apply behaves_save|]. intros _.
  apply behaves_for_each. intros [sourcePath content]. now apply behaves_save.
Qed.

(** The perfect store only saves; what it throws is never the no-match
    error. *)
Lemma storePerfectMatchData_behaves `{Collaborators} {disk : FileSystem}
    (repository chain address : string) (cr : RecompilationResult)
    (srcs : StringMap) :
  behaves is_saved (fun e => ~ is_not_found e)
    (storePerfectMatchData repository chain address cr srcs).
Proof.
  unfold storePerfectMatchData.
  apply behaves_bind; [apply behaves_or_throw; tauto|]. intros bytes.
  apply behaves_bind; [apply behaves_or_throw; tauto|]. intros cborData.
  apply behaves_bind.
  { apply behaves_lift. intros e. unfold metadataPath_of.
    repeat (destruct (cborData !! _)); try discriminate.
    intros [= <-]. tauto. }
  intros metadataPath.
  apply behaves_bind; [apply behaves_save; simpl; tauto|]. intros _.
  apply behaves_bind; [apply behaves_save; simpl; tauto|]. intros _.
  apply behaves_for_each. intros [sourcePath content].
  apply behaves_save; simpl; tauto.
Qed.

Lemma recompile_behaves `{Collaborators} (md : Metadata) (srcs : StringMap) :
  behaves is_compiled (fun e => ~ is_not_found e) (recompile md srcs).
Proof.
  unfold recompile.
  apply behaves_bind.
  { apply behaves_lift. intros e. unfold reformatMetadata.
    destruct (fold_left _ _ _) as [fileName contractName].
    case_bool_decide; [|discriminate]. intros [= <-]. tauto. }
  intros [fileName contractName].
  apply behaves_bind; [now apply behaves_emit|]. intros _.
  apply behaves_bind; [apply behaves_or_throw; tauto|]. intros contract.
  apply behaves_ret.
Qed.

(** *** Runs of writes *)

Lemma writes_app (l1 l2 : list Event) : writes (l1 ++ l2) = writes l1 ++ writes l2.
Proof. apply omap_app. Qed.

Lemma writes_saved_events_of (done : list (string * string)) :
  writes (saved_events_of done) = done.
Proof.
  induction done as [|[p c] rest IH]; [reflexivity|].
  change (writes (saved_events_of ((p, c) :: rest)))
    with ((p, c) :: writes (saved_events_of rest)).
  now rewrite IH.
Qed.

Section Saving.

Context {disk : FileSystem}.

(** A list of writes saves a leading part of the list: all of it when it
    returns, and the part before the first write that fails when it throws
    the error of that write. *)
Lemma save_all_run (planned : list (string * string)) (tr : list Event) :
  exists r done rest,
    planned = done ++ rest /\
    save_all planned tr = (r, tr ++ saved_events_of done) /\
    match r with
    | Ok _ => rest = []
    | Throw e =>
        exists path content rest',
          rest = (path, content) :: rest' /\ e = WriteError path /\
          writable (tr ++ saved_events_of done) path content = false
    end.
Proof.
  revert tr. induction planned as [|[p c] planned IH]; intros tr.
  - exists (Ok tt), [], []. simpl. now rewrite app_nil_r.
  - unfold save_all. cbn [for_each]. unfold mbind at 1, M_bind at 1.
    unfold save at 1. destruct (writable tr p c) eqn:Hw.
    + destruct (IH (tr ++ [Saved p c])) as (r & done & rest & -> & Hrun & Hr).
      unfold save_all in Hrun. rewrite Hrun.
      exists r, ((p, c) :: done), rest. split; [reflexivity|].
      simpl. rewrite <- app_assoc. split; [reflexivity|].
      destruct r as [[]|e]; [exact Hr|].
      destruct Hr as (path & content & rest' & -> & -> & Hfail).
      exists path, content, rest'. rewrite <- app_assoc in Hfail. now repeat split.
    + exists (Throw (WriteError p)), [], ((p, c) :: planned).
      simpl. rewrite app_nil_r. repeat split.
      exists p, c, planned. now repeat split.
Qed.

(** On a disk that takes every write, the whole list is saved. *)
Lemma save_all_ok (planned : list (string * string)) (tr : list Event) :
  (forall tr0 path content, writable tr0 path content = true) ->
  save_all planned tr = (Ok tt, tr ++ saved_events_of planned).
Proof.
  intros Hdisk. revert tr. induction planned as [|[p c] planned IH]; intros tr.
  - simpl. now rewrite app_nil_r.
  - unfold save_all. cbn [for_each]. unfold mbind at 1, M_bind at 1.
    unfold save at 1. rewrite Hdisk.
    unfold save_all in IH. rewrite IH. simpl. now rewrite <- app_assoc.
Qed.

Lemma for_each_save_all (place : string -> string) (srcs : StringMap)
    (tr : list Event) :
  for_each (fun '(sourcePath, content) => save (place sourcePath) content) srcs tr
  = save_all (map (fun '(sourcePath, content) => (place sourcePath, content)) srcs) tr.
Proof.
  revert tr. induction srcs as [|[sp c] rest IH]; intros tr; [reflexivity|].
  unfold save_all. cbn [for_each map]. unfold mbind, M_bind.
  destruct (save (place sp) c tr) as [[[]|e] tr1]; [apply IH | reflexivity].
Qed.

(** The partial store is the list of its writes. *)
Lemma storePartialMatchData_plan (repository chain address : string)
    (cr : RecompilationResult) (srcs : StringMap) (tr : list Event) :
  storePartialMatchData repository chain address cr srcs tr
  = save_all (partial_match_files repository chain address cr srcs) tr.
Proof.
  unfold storePartialMatchData, partial_match_files, save_all.
  cbn [for_each]. unfold mbind, M_bind.
  destruct (save _ (metadata cr) tr) as [[[]|e] tr1]; [|reflexivity].
  apply (for_each_save_all
           (fun sourcePath =>
              NodePath.join [repository; "contracts"; "partial_match"; chain;
                             address; "sources"; sanitizedPath sourcePath])).
Qed.

End Saving.

(** ** The scan, seen from its result *)

Section ScanResult.

Context `{Collaborators}.
Variable this : Injector.
Variable chain : string.

(** A scan ends in one of three ways: no match after every candidate
    compared none, a match on a checksummed address, or the exception of
    [toChecksumAddress] on a candidate that is not an address. *)
Lemma scan_result (compiled : string) (addrs : list (option string))
    (tr tr' : list Event) (r : Result Match) :
  matchBytecodeToAddress this chain addrs compiled tr = (r, tr') ->
  match r with
  | Ok m =>
      (m = {| address := None; status := None |} /\
       Forall (fun a => exists x, a = Some x /\ unmatched this chain compiled x) addrs)
      \/ (exists a' s, m = {| address := Some a'; status := Some s |}
                       /\ JS.truthy a' = true)
  | Throw e => e = CollaboratorError "toChecksumAddress"
  end.
Proof.
  revert tr. induction addrs as [|a rest IH]; intros tr Hrun.
  - injection Hrun as <- <-. left. split; [reflexivity | constructor].
  - destruct (a ≫= toChecksumAddress) as [a'|] eqn:Ha.
    + destruct a as [x|]; [|discriminate]. simpl in Ha.
      rewrite (scan_step _ _ _ _ _ _ _ Ha) in Hrun. cbn zeta in Hrun.
      destruct (compareBytecodes (onChainCode this chain a') compiled)
        as [s|] eqn:Hs.
      * injection Hrun as <- <-. right. exists a', s.
        split; [reflexivity|]. eapply toChecksumAddress_truthy, Ha.
      * specialize (IH _ Hrun). destruct r as [m|e]; [|exact IH].
        destruct IH as [[-> Hall]|Hm]; [left|now right].
        split; [reflexivity|]. constructor; [|exact Hall].
        exists x. split; [reflexivity|]. now exists a'.
    + rewrite (scan_invalid _ _ _ _ _ _ Ha) in Hrun.
      now injection Hrun as <- <-.
Qed.

(** With candidates that are addresses the scan returns a match record,
    whatever the reads do. *)
Lemma scan_returns (compiled : string) (addrs : list string) (tr : list Event) :
  Forall (fun x => is_Some (toChecksumAddress x)) addrs ->
  exists m evs,
    matchBytecodeToAddress this chain (Some <$> addrs) compiled tr
    = (Ok m, tr ++ evs).
Proof.
  intros Hall. revert tr. induction Hall as [|a addrs [a' Ha] _ IH]; intros tr.
  - exists {| address := None; status := None |}, []. now rewrite app_nil_r.
  - rewrite fmap_cons, (scan_step _ _ _ _ _ _ _ Ha). cbn zeta.
    destruct (compareBytecodes _ compiled) as [s|].
    + eexists _, _. reflexivity.
    + destruct (IH (tr ++ read_events this chain a'
                       ++ [Compared (onChainCode this chain a') compiled]))
        as (m & evs & Hrun).
      exists m, ((read_events this chain a'
                   ++ [Compared (onChainCode this chain a') compiled]) ++ evs).
      now rewrite Hrun, !app_assoc.
Qed.

(** A candidate whose [getBytecode] call throws is skipped: the scan goes on
    with the rest of the list. *)
Lemma scan_skips_failed_read (compiled : string) (web3 : Web3) (a a' : string)
    (rest : list (option string)) (e : Error) (tr tr1 : list Event) :
  chains this chain = Some web3 ->
  toChecksumAddress a = Some a' ->
  getBytecode web3 a' tr = (Throw e, tr1) ->
  matchBytecodeToAddress this chain (Some a :: rest) compiled tr
  = matchBytecodeToAddress this chain rest compiled
      (tr1 ++ [Compared None compiled]).
Proof.
  intros Hweb3 Ha Hget. cbn [matchBytecodeToAddress].
  unfold checksum, read_deployed, call_compareBytecodes.
  unfold mbind at 1, M_bind at 1. cbn [mbind option_bind]. rewrite Ha.
  unfold or_throw at 1, mret at 1, M_ret at 1.
  unfold mbind at 1, M_bind at 1. unfold try_catch.
  unfold mbind at 1, M_bind at 1. rewrite Hweb3.
  unfold or_throw at 1, mret at 1, M_ret at 1.
  unfold mbind at 1, M_bind at 1. rewrite Hget.
  run_monad. reflexivity.
Qed.

(** A rejected [eth_getCode] call is such a throw, after the one read. *)
Lemma getBytecode_rejected (web3 : Web3) (a' a'' : string) (tr : list Event) :
  toChecksumAddress a' = Some a'' ->
  eth_getCode web3 a'' = None ->
  getBytecode web3 a' tr
  = (Throw (CollaboratorError "getCode"), tr ++ [GetCode a'']).
Proof.
  intros Ha Hcode. unfold getBytecode, checksum. run_monad.
  rewrite Ha. simpl. now rewrite Hcode.
Qed.

End ScanResult.

(** ** The orchestrator *)

Section Orchestrator.

Context `{Collaborators}.
Context {disk : FileSystem}.
Variable this : Injector.

Lemma validateAddresses_null (addrs : list (option string)) :
  None ∈ addrs -> validateAddresses addrs = Throw MissingAddress.
Proof.
  intros Hin. unfold validateAddresses. case_bool_decide; [reflexivity|].
  clear -Hin. induction addrs as [|[x|] rest IH]; simpl.
  - inversion Hin.
  - apply IH. apply elem_of_cons in Hin as [Hin|Hin]; [discriminate | exact Hin].
  - reflexivity.
Qed.

Lemma validateAddresses_throws (addrs : list (option string)) (e : Error) :
  validateAddresses addrs = Throw e -> e = MissingAddress.
Proof.
  unfold validateAddresses. destruct (bool_decide _); [congruence|].
  induction addrs as [|[x|] rest IH]; simpl; [discriminate | exact IH | congruence].
Qed.


(** When the scan is used, a no-match error of one turn of the loop means
    that the source compiled and every candidate compared none. *)
Lemma inject_source_not_found (inputData : InputData) (source : Source)
    (tr tr' : list Event) (target : StringMap) (checked : list (option string)) :
  JS.truthy_opt (inputData_bytecode inputData) = false ->
  inject_source this inputData source tr
  = (Throw (NotFoundError target checked), tr') ->
  checked = addresses inputData /\
  target = compilationTarget (source_metadata source) /\
  exists cr tr1,
    recompile (source_metadata source) (solidity source) tr = (Ok cr, tr1) /\
    Forall (fun a => exists x, a = Some x /\
              unmatched this (chain inputData) (deployedBytecode cr) x)
           (addresses inputData).
Proof.
  intros Hb. unfold inject_source. rewrite Hb.
  unfold mbind at 1, M_bind at 1.
  destruct (recompile_behaves (source_metadata source) (solidity source) tr)
    as (r & cevs & Hrun & _ & Hthrow).
  rewrite Hrun. destruct r as [cr|e].
  2:{ intros [= -> _]. now destruct (Hthrow _ eq_refl). }
  unfold mbind at 1, M_bind at 1.
  destruct (matchBytecodeToAddress this (chain inputData) (addresses inputData)
              (deployedBytecode cr) (tr ++ cevs)) as [r tr2] eqn:Hscan.
  pose proof (scan_result _ _ _ _ _ _ _ Hscan) as Hres.
  destruct r as [m|e]; [|now intros [= -> _]].
  destruct Hres as [[-> Hall]|(a' & s & -> & Ha')].
  - simpl. intros [= <- <- <-]. repeat split. now exists cr, (tr ++ cevs).
  - cbn [address status JS.truthy_opt]. rewrite Ha'. unfold default. cbn [andb from_option id].
    destruct s.
    + rewrite bool_decide_eq_true_2 by reflexivity.
      unfold mbind at 1, M_bind at 1.
      destruct (storePerfectMatchData_behaves (repository inputData)
                  (chain inputData) a' cr (solidity source) tr2)
        as (r & sevs & Hstore & _ & Hthrow').
      rewrite Hstore. destruct r as [[]|e]; [discriminate|].
      intros [= -> _]. now destruct (Hthrow' _ eq_refl).
    + rewrite bool_decide_eq_false_2 by discriminate.
      rewrite bool_decide_eq_true_2 by reflexivity.
      unfold mbind at 1, M_bind at 1.
      destruct (storePartialMatchData_behaves (repository inputData)
                  (chain inputData) a' cr (solidity source) tr2)
        as (r & sevs & Hstore & _ & Hthrow').
      rewrite Hstore. destruct r as [[]|e]; [discriminate|].
      intros [= -> _]. now destruct (Hthrow' _ eq_refl).
Qed.

Lemma inject_loop_throw (inputData : InputData) (fs : list Source) (m : Match)
    (tr tr' : list Event) (e : Error) :
  inject_loop this inputData fs m tr = (Throw e, tr') ->
  exists source tr0,
    source ∈ fs /\ inject_source this inputData source tr0 = (Throw e, tr').
Proof.
  revert m tr. induction fs as [|source rest IH]; intros m tr; simpl.
  - discriminate.
  - unfold mbind at 1, M_bind at 1.
    destruct (inject_source this inputData source tr) as [[m'|e'] tr1] eqn:Hsrc.
    + intros Hrest. destruct (IH _ _ Hrest) as (s & tr0 & Hin & Hrun).
      exists s, tr0. split; [now right | exact Hrun].
    + intros [= <- <-]. exists source, tr. split; [now left | exact Hsrc].
Qed.






Lemma compiled_events (evs : list Event) :
  Forall is_compiled evs -> reads evs = [] /\ comparisons evs = [] /\ writes evs = [].
Proof.
  induction 1 as [|e evs He _ IH]; [now repeat split|].
  destruct e; simpl in *; try contradiction. exact IH.
Qed.


End Orchestrator.

(** ** The matcher and the orchestrator: the stated properties *)

(** C3. The scan goes through the candidates in input order. When the
    candidates before [a] are addresses whose on-chain code compares none
    and the code of [a] compares [s], the scan returns the checksum form of
    [a] with [s], whatever follows [a] in the list: the result and the
    events are the same for every continuation [after], so a later
    candidate is neither read nor preferred. The chain reads number at most
    one per scanned candidate, each at the checksum form of one of them.
    When every candidate compares none the scan returns the match with
    address null and status none. *)
Theorem matchBytecodeToAddress_first_match `{Collaborators} (this : Injector)
    (chain compiled : string) :
  (forall (before : list string) (a a' : string) (s : MatchStatus)
          (tr : list Event),
     Forall (unmatched this chain compiled) before ->
     toChecksumAddress a = Some a' ->
     compareBytecodes (onChainCode this chain a') compiled = Some s ->
     exists evs,
       (forall after,
          matchBytecodeToAddress this chain (Some <$> before ++ a :: after)
            compiled tr
          = (Ok {| address := Some a'; status := Some s |}, tr ++ evs))
       /\ (List.length (reads evs) <= List.length before + 1)%nat
       /\ (forall r, r ∈ reads evs ->
             exists x x', x ∈ before ++ [a] /\ toChecksumAddress x = Some x'
                          /\ toChecksumAddress x' = Some r)) /\
  (forall (addrs : list string) (tr : list Event),
     Forall (unmatched this chain compiled) addrs ->
     exists evs,
       matchBytecodeToAddress this chain (Some <$> addrs) compiled tr
       = (Ok {| address := None; status := None |}, tr ++ evs)
       /\ (List.length (reads evs) <= List.length addrs)%nat
       /\ (forall r, r ∈ reads evs ->
             exists x x', x ∈ addrs /\ toChecksumAddress x = Some x'
                          /\ toChecksumAddress x' = Some r)).
Proof.
  split.
  - intros before a a' s tr. apply scan_first_match.
  - intros addrs tr. apply scan_all_unmatched.
Qed.

(** On the demonstration chain the third candidate matches partially and is
    returned, although the fourth would match perfectly. *)
Lemma matchBytecodeToAddress_first_match_witness :
  exists evs,
    matchBytecodeToAddress (H := Demo.collaborators) Demo.injector "1"
      (Some <$> ["0xC"; "0xD"] ++ "0xA" :: ["0xB"]) "0x60000000" []
    = (Ok {| address := Some "0xA"; status := Some partial |}, [] ++ evs)
    /\ compareBytecodes
         (onChainCode (H := Demo.collaborators) Demo.injector "1" "0xB")
         "0x60000000" = Some perfect.
Proof.
  destruct (proj1 (matchBytecodeToAddress_first_match
                     (H := Demo.collaborators) Demo.injector "1" "0x60000000")
              ["0xC"; "0xD"] "0xA" "0xA" partial [])
    as (evs & Hrun & _).
  - repeat constructor.
    + exists "0xC". split; vm_compute; reflexivity.
    + exists "0xD". split; vm_compute; reflexivity.
  - reflexivity.
  - vm_compute. reflexivity.
  - exists evs. split; [apply Hrun | vm_compute; reflexivity].
Defined.

(** C4. A [getBytecode] call that throws does not end the scan: the
    candidate counts as having no code and the scan goes on with the next
    one. With candidates that are addresses the scan always returns a match
    record, so no read failure leaves the matcher. When the scan is used,
    [inject] raises the no-match error only after a source compiled and
    every candidate of the list compared none. *)
Theorem read_failure_never_aborts `{Collaborators} {disk : FileSystem}
    (this : Injector) :
  (forall (chain compiled : string) (web3 : Web3) (a a' : string)
          (rest : list (option string)) (e : Error) (tr tr1 : list Event),
     chains this chain = Some web3 ->
     toChecksumAddress a = Some a' ->
     getBytecode web3 a' tr = (Throw e, tr1) ->
     matchBytecodeToAddress this chain (Some a :: rest) compiled tr
     = matchBytecodeToAddress this chain rest compiled
         (tr1 ++ [Compared None compiled])) /\
  (forall (chain compiled : string) (addrs : list string) (tr : list Event),
     Forall (fun x => is_Some (toChecksumAddress x)) addrs ->
     exists m evs,
       matchBytecodeToAddress this chain (Some <$> addrs) compiled tr
       = (Ok m, tr ++ evs)) /\
  (forall (inputData : InputData) (target : StringMap)
          (checked : list (option string)) (tr tr' : list Event),
     JS.truthy_opt (inputData_bytecode inputData) = false ->
     inject this inputData tr = (Throw (NotFoundError target checked), tr') ->
     checked = addresses inputData /\
     exists source cr tr0 tr1,
       source ∈ files inputData /\
       target = compilationTarget (source_metadata source) /\
       recompile (source_metadata source) (solidity source) tr0 = (Ok cr, tr1) /\
       Forall (fun a => exists x, a = Some x /\
                 unmatched this (chain inputData) (deployedBytecode cr) x)
              (addresses inputData)).
Proof.
  split; [|split].
  - intros chain compiled web3 a a' rest e tr tr1.
    apply scan_skips_failed_read.
  - intros chain compiled addrs tr. apply scan_returns.
  - intros inputData target checked tr tr' Hb. unfold inject.
    unfold mbind at 1, M_bind at 1, lift at 1.
    destruct (validateAddresses (addresses inputData)) as [[]|e] eqn:Hva.
    2:{ intros [= -> _]. now apply validateAddresses_throws in Hva. }
    unfold mbind at 1, M_bind at 1, lift at 1.
    destruct (validateChain (chain inputData)) as [[]|e] eqn:Hvc.
    2:{ unfold validateChain in Hvc. intros [= -> _].
        destruct (negb _); discriminate. }
    intros Hloop.
    destruct (inject_loop_throw _ _ _ _ _ _ _ Hloop) as (source & tr0 & Hin & Hsrc).
    destruct (inject_source_not_found _ _ _ _ _ _ _ Hb Hsrc)
      as (-> & -> & cr & tr1 & Hcr & Hall).
    split; [reflexivity|]. now exists source, cr, tr0, tr1.
Qed.

(** On the demonstration chain reads of [0xC] reject: the scan goes on to
    [0xA] and matches there; and a list of which no candidate matches ends
    in the no-match error that names the whole list. *)
Lemma read_failure_never_aborts_witness :
  matchBytecodeToAddress (H := Demo.collaborators) Demo.injector "1"
    [Some "0xC"; Some "0xA"] "0x60000000" []
  = matchBytecodeToAddress (H := Demo.collaborators) Demo.injector "1"
      [Some "0xA"] "0x60000000"
      ([GetCode "0xC"] ++ [Compared None "0x60000000"])
  /\ exists source cr tr0 tr1,
       source ∈ [Demo.source] /\
       [("A.sol", "A")] = compilationTarget (source_metadata source) /\
       recompile (H := Demo.collaborators) (source_metadata source)
         (solidity source) tr0 = (Ok cr, tr1) /\
       Forall (fun a => exists x, a = Some x /\
                 unmatched (H := Demo.collaborators) Demo.injector "1"
                   (deployedBytecode cr) x)
              [Some "0xC"; Some "0xD"].
Proof.
  pose (input := {| repository := "repo"; chain := "1";
                    addresses := [Some "0xC"; Some "0xD"];
                    files := [Demo.source]; inputData_bytecode := None |}).
  split.
  - apply (proj1 (read_failure_never_aborts (H := Demo.collaborators)
                    (disk := Demo.file_system) Demo.injector)
             "1" "0x60000000" Demo.web3 "0xC" "0xC" [Some "0xA"]
             (CollaboratorError "getCode") [] [GetCode "0xC"]);
      vm_compute; reflexivity.
  - refine (proj2 (proj2 (proj2 (read_failure_never_aborts
                                   (H := Demo.collaborators)
                                   (disk := Demo.file_system) Demo.injector))
                     input [("A.sol", "A")] [Some "0xC"; Some "0xD"] []
                     [Compiled "A.sol" "A"; GetCode "0xC";
                      Compared None "0x60000000";
                      GetCode "0xD"; Compared (Some "0x") "0x60000000"] _ _));
      vm_compute; reflexivity.
Defined.

(** C10. A null element anywhere in the candidate list makes [inject] throw
    the missing-address error at once: the trace of events is returned as
    it was, so nothing was compiled, read, compared or saved. *)
Theorem inject_rejects_null_address `{Collaborators} {disk : FileSystem}
    (this : Injector) (inputData : InputData) (tr : list Event) :
  None ∈ addresses inputData ->
  inject this inputData tr = (Throw MissingAddress, tr).
Proof.
  intros Hin. unfold inject.
  unfold mbind at 1, M_bind at 1, lift at 1.
  now rewrite (validateAddresses_null _ Hin).
Qed.

Lemma inject_rejects_null_address_witness :
  inject (H := Demo.collaborators) (disk := Demo.file_system) Demo.injector
    {| repository := "repo"; chain := "1";
       addresses := [Some "0xB"; None];
       files := [Demo.source]; inputData_bytecode := None |} []
  = (Throw MissingAddress, []).
Proof.
  apply (inject_rejects_null_address (H := Demo.collaborators)
           (disk := Demo.file_system)).
  simpl. right. left.
Defined.



(** ** The metadata reference *)

Lemma bytesToHex_slice (bytes : list byte) :
  JS.slice (bytesToHex bytes) (JS.Num 2) None = hex_of_bytes bytes.
Proof.
  unfold JS.slice, bytesToHex, JS.length. cbn [JS.toInteger].
  set (h := hex_of_bytes bytes).
  change (String.length ("0x" +:+ h)) with (S (S (String.length h))).
  assert (Hfrom : JS.relative_index (Z.of_nat (S (S (String.length h)))) 2 = 2).
  { unfold JS.relative_index. change (2 <? 0) with false. cbn iota. lia. }
  rewrite Hfrom.
  replace (Z.to_nat (Z.max (Z.of_nat (S (S (String.length h))) - 2) 0))
    with (String.length h) by lia.
  change (Z.to_nat 2) with 2%nat. simpl. apply substring_whole.
Qed.

(** C7. The decoded trailer is looked up under [bzzr0] first, then [bzzr1],
    then [ipfs]; the first key present gives the content address, in hex
    for the swarm keys and through the multihash encoder for [ipfs]. With
    none of the three keys the perfect store throws the missing-reference
    error before anything is saved. *)
Theorem metadata_reference_priority `{Collaborators} {disk : FileSystem}
    (cborData : gmap string (list byte)) :
  (forall b, cborData !! "bzzr0" = Some b ->
     metadataPath_of cborData = Ok ("/swarm/bzzr0/" +:+ hex_of_bytes b)) /\
  (forall b, cborData !! "bzzr0" = None -> cborData !! "bzzr1" = Some b ->
     metadataPath_of cborData = Ok ("/swarm/bzzr1/" +:+ hex_of_bytes b)) /\
  (forall b, cborData !! "bzzr0" = None -> cborData !! "bzzr1" = None ->
     cborData !! "ipfs" = Some b ->
     metadataPath_of cborData = Ok ("/ipfs/" +:+ toB58String b)) /\
  (cborData !! "bzzr0" = None -> cborData !! "bzzr1" = None ->
   cborData !! "ipfs" = None ->
     metadataPath_of cborData = Throw MetadataReferenceMissing /\
     forall repository chain address cr srcs bytes tr,
       hexToBytes (deployedBytecode cr) = Some bytes ->
       cborDecode bytes = Some cborData ->
       storePerfectMatchData repository chain address cr srcs tr
       = (Throw MetadataReferenceMissing, tr)).
Proof.
  unfold metadataPath_of. split; [|split; [|split]].
  - intros b ->. now rewrite bytesToHex_slice.
  - intros b -> ->. now rewrite bytesToHex_slice.
  - now intros b -> -> ->.
  - intros H0 H1 Hi. split; [now rewrite H0, H1, Hi|].
    intros repository chain address cr srcs bytes tr Hbytes Hcbor.
    unfold storePerfectMatchData.
    unfold mbind at 1, M_bind at 1. rewrite Hbytes. cbn [or_throw].
    unfold mret at 1, M_ret at 1.
    unfold mbind at 1, M_bind at 1. rewrite Hcbor. cbn [or_throw].
    unfold mret at 1, M_ret at 1.
    unfold mbind at 1, M_bind at 1, lift at 1.
    unfold metadataPath_of. now rewrite H0, H1, Hi.
Qed.

(** A trailer with both [bzzr1] and [ipfs] resolves to the swarm address, one
    with [ipfs] alone to the ipfs address, and the code [0x], which decodes
    to no key at all, makes the perfect store throw. *)
Lemma metadata_reference_priority_witness :
  metadataPath_of (H := Demo.collaborators)
    {[ "bzzr1" := [Byte.x0a; Byte.xff]; "ipfs" := [Byte.x12] ]}
  = Ok ("/swarm/bzzr1/" +:+ hex_of_bytes [Byte.x0a; Byte.xff]) /\
  metadataPath_of (H := Demo.collaborators) {[ "ipfs" := [Byte.x12; Byte.x20] ]}
  = Ok ("/ipfs/" +:+ toB58String (Collaborators := Demo.collaborators)
                        [Byte.x12; Byte.x20]) /\
  storePerfectMatchData (H := Demo.collaborators) (disk := Demo.file_system)
    "repo" "1" "0xB"
    {| bytecode := ""; deployedBytecode := "0x"; metadata := "{}" |}
    [("A.sol", "contract A {}")] []
  = (Throw MetadataReferenceMissing, []).
Proof.
  split; [|split].
  - apply (proj1 (proj2 (metadata_reference_priority (H := Demo.collaborators)
                           (disk := Demo.file_system)
                           {[ "bzzr1" := [Byte.x0a; Byte.xff];
                              "ipfs" := [Byte.x12] ]})));
      vm_compute; reflexivity.
  - apply (proj1 (proj2 (proj2 (metadata_reference_priority
                                  (H := Demo.collaborators)
                                  (disk := Demo.file_system)
                                  {[ "ipfs" := [Byte.x12; Byte.x20] ]}))));
      vm_compute; reflexivity.
  - refine (proj2 (proj2 (proj2 (proj2 (metadata_reference_priority
                                          (H := Demo.collaborators)
                                          (disk := Demo.file_system) ∅))) _ _ _)
              "repo" "1" "0xB" _ _ [] [] _ _);
      vm_compute; reflexivity.
Defined.

(** ** Source assembly *)

Section Assembler.

Context `{Collaborators}.

Lemma prototype_member_proto (h : string) :
  is_prototype_member h = false -> h <> "__proto__".
Proof. intros Hm ->. vm_compute in Hm. discriminate. Qed.

Lemma lookup_write_property (m : gmap string string) (k v h : string) :
  write_property m k v !! h
  = if bool_decide (k = "__proto__") then m !! h
    else if bool_decide (k = h) then Some v else m !! h.
Proof.
  unfold write_property. case_bool_decide; [reflexivity|].
  case_bool_decide as Hk; [subst; apply lookup_insert_eq | now apply lookup_insert_ne].
Qed.

Lemma storeByHash_fold_some (files : list string) (m0 : gmap string string)
    (h c : string) :
  fold_left (fun byHash file => write_property byHash (keccak256 file) file)
    files m0 !! h = Some c ->
  (c ∈ files /\ keccak256 c = h /\ h <> "__proto__") \/ m0 !! h = Some c.
Proof.
  revert m0. induction files as [|f rest IH]; intros m0; simpl; [now right|].
  intros Hl. destruct (IH _ Hl) as [(Hin & Hk & Hp)|Hm].
  - left. split; [now right | now split].
  - rewrite lookup_write_property in Hm.
    case_bool_decide as Hproto; [now right|].
    case_bool_decide as Hk; [|now right].
    injection Hm as <-. left. split; [left|]. split; [exact Hk | congruence].
Qed.

Lemma storeByHash_fold_none (files : list string) (m0 : gmap string string)
    (h : string) :
  h <> "__proto__" ->
  fold_left (fun byHash file => write_property byHash (keccak256 file) file)
    files m0 !! h = None <->
  m0 !! h = None /\ forall c, c ∈ files -> keccak256 c <> h.
Proof.
  intros Hp. revert m0. induction files as [|f rest IH]; intros m0; simpl.
  - split; [intros Hm; split; [exact Hm|] | tauto]. intros c Hc. inversion Hc.
  - rewrite IH, lookup_write_property. split.
    + intros [Hm Hrest]. case_bool_decide as Hproto.
      * split; [exact Hm|].
        intros c [->|Hc]%elem_of_cons; [congruence | now apply Hrest].
      * case_bool_decide as Hk; [discriminate|]. split; [exact Hm|].
        intros c [->|Hc]%elem_of_cons; [exact Hk | now apply Hrest].
    + intros [Hm Hall]. split.
      * case_bool_decide; [exact Hm|].
        rewrite bool_decide_eq_false_2; [exact Hm|]. apply Hall. left.
      * intros c Hc. apply Hall. now right.
Qed.

(** No upload creates a property [__proto__]. *)
Lemma storeByHash_fold_proto (files : list string) (m0 : gmap string string) :
  fold_left (fun byHash file => write_property byHash (keccak256 file) file)
    files m0 !! "__proto__" = m0 !! "__proto__".
Proof.
  revert m0. induction files as [|f rest IH]; intros m0; simpl; [reflexivity|].
  rewrite IH, lookup_write_property.
  case_bool_decide; reflexivity.
Qed.

Lemma storeByHash_fold_agree (files : list string) (m1 m2 : gmap string string)
    (h : string) :
  m1 !! h = m2 !! h ->
  fold_left (fun byHash file => write_property byHash (keccak256 file) file)
    files m1 !! h
  = fold_left (fun byHash file => write_property byHash (keccak256 file) file)
      files m2 !! h.
Proof.
  revert m1 m2. induction files as [|f rest IH]; intros m1 m2 Hm; simpl; [exact Hm|].
  apply IH. rewrite !lookup_write_property. now rewrite Hm.
Qed.

(** A file whose digest is not [h] does not change what is stored under [h]. *)
Lemma storeByHash_extra (files1 files2 : list string) (x h : string) :
  keccak256 x <> h ->
  storeByHash (files1 ++ x :: files2) !! h = storeByHash (files1 ++ files2) !! h.
Proof.
  intros Hne. unfold storeByHash. rewrite !fold_left_app. simpl.
  apply storeByHash_fold_agree. rewrite lookup_write_property.
  case_bool_decide; [reflexivity|]. now rewrite bool_decide_eq_false_2.
Qed.

Lemma resolve_source_ext (byHash1 byHash2 : gmap string string)
    (fileName : string) (entry : SourceEntry) :
  byHash1 !! se_keccak256 entry = byHash2 !! se_keccak256 entry ->
  resolve_source byHash1 fileName entry = resolve_source byHash2 fileName entry.
Proof. intros Heq. unfold resolve_source, read_property. now rewrite Heq. Qed.

Lemma rearrange_loop_ext (byHash1 byHash2 : gmap string string)
    (declared : list (string * SourceEntry)) (acc : SourcesObject) :
  (forall d, d ∈ declared ->
     byHash1 !! se_keccak256 d.2 = byHash2 !! se_keccak256 d.2) ->
  rearrange_loop byHash1 declared acc = rearrange_loop byHash2 declared acc.
Proof.
  revert acc. induction declared as [|[f e] rest IH]; intros acc Heq; simpl;
    [reflexivity|].
  rewrite (resolve_source_ext byHash1 byHash2 f e) by (apply (Heq (f, e)); left).
  unfold mbind, Result_bind. destruct (resolve_source byHash2 f e); [|reflexivity].
  destruct (assign_source acc f a); [|reflexivity].
  apply IH. intros d Hd. apply Heq. now right.
Qed.

(** The three outcomes of one declared entry, for an upload and inline
    contents without empty strings and a declared digest that is not the
    name of a member of [Object.prototype]. *)
Lemma resolve_source_cases (files : list string) (fileName : string)
    (entry : SourceEntry) :
  Forall (fun c => JS.truthy c = true) files ->
  (forall c, se_content entry = Some c -> JS.truthy c = true) ->
  is_prototype_member (se_keccak256 entry) = false ->
  match resolve_source (storeByHash files) fileName entry with
  | Ok v => exists c, v = Text c /\ entry_verified files entry c
  | Throw e =>
      (e = InvalidContent fileName /\ entry_mismatch entry) \/
      (e = SourceNotFound fileName (se_keccak256 entry)
       /\ entry_missing files entry)
  end.
Proof.
  intros Hfiles Hinline Hord. unfold resolve_source, entry_verified, entry_mismatch,
    entry_missing.
  destruct (se_content entry) as [inline|] eqn:Hc.
  - rewrite (Hinline inline eq_refl). case_bool_decide as Hk; simpl.
    + rewrite (Hinline inline eq_refl). exists inline.
      split; [reflexivity|]. split; [exact Hk | now left].
    + left. split; [reflexivity|]. now exists inline.
  - simpl. unfold read_property.
    destruct (storeByHash files !! se_keccak256 entry) as [c|] eqn:Hl.
    + apply storeByHash_fold_some in Hl as [(Hin & Hk & _)|Hl];
        [|now rewrite lookup_empty in Hl].
      simpl. rewrite Forall_forall in Hfiles. rewrite (Hfiles c Hin).
      exists c. split; [reflexivity|]. split; [exact Hk | right; now split].
    + rewrite Hord. right. split; [reflexivity|]. split; [reflexivity|].
      apply storeByHash_fold_none in Hl as [_ Hl];
        [exact Hl | now apply prototype_member_proto].
Qed.

Lemma entry_verified_exclusive (files : list string) (entry : SourceEntry)
    (c : string) :
  entry_verified files entry c ->
  ~ entry_mismatch entry /\ ~ entry_missing files entry.
Proof.
  intros [Hk [Hc|[Hc Hin]]]; split.
  - intros (c' & Hc' & Hne). congruence.
  - intros [Hnone _]. congruence.
  - intros (c' & Hc' & _). congruence.
  - intros [_ Hall]. now apply (Hall c).
Qed.

Lemma entry_mismatch_not_missing (files : list string) (entry : SourceEntry) :
  entry_mismatch entry -> ~ entry_missing files entry.
Proof. intros (c & Hc & _) [Hnone _]. congruence. Qed.

Lemma set_source_fresh (m : list (string * Content)) (k : string) (v : Content) :
  k ∉ m.*1 -> set_source m k v = m ++ [(k, v)].
Proof.
  induction m as [|[k' v'] rest IH]; simpl; [reflexivity|].
  intros Hk. apply not_elem_of_cons in Hk as [Hne Hk].
  rewrite bool_decide_eq_false_2 by congruence. now rewrite IH.
Qed.

(** On an object that still has [Object.prototype] as its prototype, the
    assignment of a name other than [__proto__] sets the property. *)
Lemma assign_source_plain (acc : list (string * Content)) (f : string)
    (c : Content) :
  f <> "__proto__" ->
  assign_source {| own_sources := acc; prototype := None |} f c
  = Ok {| own_sources := set_source acc f c; prototype := None |}.
Proof.
  intros Hf. unfold assign_source. rewrite bool_decide_eq_false_2 by exact Hf.
  simpl. now destruct (get_source acc f).
Qed.

(** A loop that returns has resolved every declared entry, and added the
    files in declaration order. *)
Lemma rearrange_loop_ok (byHash : gmap string string)
    (declared : list (string * SourceEntry)) (acc : list (string * Content))
    (out : SourcesObject) :
  NoDup (acc.*1 ++ declared.*1) ->
  Forall (fun d => d.1 <> "__proto__") declared ->
  rearrange_loop byHash declared {| own_sources := acc; prototype := None |}
  = Ok out ->
  exists new,
    out = {| own_sources := acc ++ new; prototype := None |} /\
    Forall2 (fun d o => o.1 = d.1 /\ resolve_source byHash d.1 d.2 = Ok o.2)
            declared new.
Proof.
  revert acc. induction declared as [|[f e] rest IH]; intros acc Hnd Hnames; simpl.
  - intros [= <-]. exists []. now rewrite app_nil_r.
  - apply Forall_cons in Hnames as [Hf Hnames]. simpl in Hf.
    unfold mbind, Result_bind.
    destruct (resolve_source byHash f e) as [c|err] eqn:Hres; [|discriminate].
    rewrite (assign_source_plain _ _ _ Hf).
    intros Hloop. simpl in Hnd.
    assert (Hfresh : f ∉ acc.*1).
    { apply NoDup_app in Hnd as (_ & Hdisj & _). intros Hin.
      apply (Hdisj f Hin). left. }
    rewrite (set_source_fresh _ _ _ Hfresh) in Hloop.
    destruct (IH (acc ++ [(f, c)])) as (new & -> & Hall).
    + rewrite fmap_app. simpl. rewrite <- app_assoc. simpl.
      exact Hnd.
    + exact Hnames.
    + exact Hloop.
    + exists ((f, c) :: new). rewrite <- app_assoc. split; [reflexivity|].
      constructor; [now split | exact Hall].
Qed.

Lemma rearrange_loop_returns (byHash : gmap string string)
    (declared : list (string * SourceEntry)) (acc : list (string * Content)) :
  Forall (fun d => d.1 <> "__proto__") declared ->
  (exists out,
     rearrange_loop byHash declared {| own_sources := acc; prototype := None |}
     = Ok out) <->
  Forall (fun d => exists c, resolve_source byHash d.1 d.2 = Ok c) declared.
Proof.
  intros Hnames. revert acc.
  induction Hnames as [|[f e] rest Hf _ IH]; intros acc; simpl.
  - split; [constructor | eauto].
  - simpl in Hf. unfold mbind, Result_bind.
    destruct (resolve_source byHash f e) as [c|err] eqn:Hres.
    + rewrite (assign_source_plain _ _ _ Hf), IH.
      split; [intros Hall; constructor; eauto|].
      now intros [_ Hall]%Forall_cons.
    + split; [now intros [out Hout]|].
      intros [[c Hc] _]%Forall_cons. simpl in Hc. congruence.
Qed.

(** A loop that throws stopped at the first declared entry that does not
    resolve, with the error of that entry. *)
Lemma rearrange_loop_throws (byHash : gmap string string)
    (declared : list (string * SourceEntry)) (acc : list (string * Content))
    (err : Error) :
  Forall (fun d => d.1 <> "__proto__") declared ->
  rearrange_loop byHash declared {| own_sources := acc; prototype := None |}
  = Throw err <->
  exists pre f e post,
    declared = pre ++ (f, e) :: post /\
    Forall (fun d => exists c, resolve_source byHash d.1 d.2 = Ok c) pre /\
    resolve_source byHash f e = Throw err.
Proof.
  intros Hnames. revert acc.
  induction Hnames as [|[f e] rest Hf _ IH]; intros acc; simpl.
  - split; [discriminate|]. intros (pre & f & e & post & Heq & _).
    now destruct pre.
  - simpl in Hf. unfold mbind, Result_bind.
    destruct (resolve_source byHash f e) as [c|err'] eqn:Hres.
    + rewrite (assign_source_plain _ _ _ Hf), IH. split.
      * intros (pre & f' & e' & post & -> & Hpre & Hthrow).
        exists ((f, e) :: pre), f', e', post. split; [reflexivity|].
        split; [constructor; eauto | exact Hthrow].
      * intros (pre & f' & e' & post & Heq & Hpre & Hthrow).
        destruct pre as [|d pre]; simplify_eq/=; try congruence.
        apply Forall_cons in Hpre as [_ Hpre].
        now exists pre, f', e', post.
    + split.
      * intros [= <-]. exists [], f, e, rest. now repeat split.
      * intros (pre & f' & e' & post & Heq & Hpre & Hthrow).
        destruct pre as [|d pre]; simplify_eq/=; try congruence.
        apply Forall_cons in Hpre as [[c Hc] _]. simpl in Hc. congruence.
Qed.

Section Upload.

Variable files : list string.
Hypothesis files_truthy : Forall (fun c => JS.truthy c = true) files.

Lemma resolve_source_returns (fileName : string) (entry : SourceEntry) :
  (forall c, se_content entry = Some c -> JS.truthy c = true) ->
  is_prototype_member (se_keccak256 entry) = false ->
  (exists c, resolve_source (storeByHash files) fileName entry = Ok c) <->
  (exists c, entry_verified files entry c).
Proof.
  intros Hinline Hord.
  pose proof (resolve_source_cases files fileName entry files_truthy Hinline Hord)
    as Hcases.
  destruct (resolve_source _ fileName entry) as [c|err].
  - split; [|eauto]. intros _. destruct Hcases as (c' & _ & Hv). eauto.
  - split; [now intros [c Hc]|]. intros [c Hc].
    destruct (entry_verified_exclusive _ _ _ Hc) as [Hnm Hns].
    destruct Hcases as [[_ Hm]|[_ Hm]]; contradiction.
Qed.

Lemma resolve_source_invalid (fileName f : string) (entry : SourceEntry) :
  (forall c, se_content entry = Some c -> JS.truthy c = true) ->
  is_prototype_member (se_keccak256 entry) = false ->
  resolve_source (storeByHash files) fileName entry = Throw (InvalidContent f) <->
  f = fileName /\ entry_mismatch entry.
Proof.
  intros Hinline Hord.
  pose proof (resolve_source_cases files fileName entry files_truthy Hinline Hord)
    as Hcases.
  destruct (resolve_source _ fileName entry) as [c|err].
  - split; [discriminate|]. intros [_ Hm]. destruct Hcases as (c' & _ & Hv).
    now destruct (entry_verified_exclusive _ _ _ Hv).
  - destruct Hcases as [[-> Hm]|[-> Hm]].
    + split; [now intros [= <-] | now intros [-> _]].
    + split; [discriminate|]. intros [_ Hm'].
      now destruct (entry_mismatch_not_missing files entry).
Qed.

Lemma resolve_source_not_found (fileName f h : string) (entry : SourceEntry) :
  (forall c, se_content entry = Some c -> JS.truthy c = true) ->
  is_prototype_member (se_keccak256 entry) = false ->
  resolve_source (storeByHash files) fileName entry = Throw (SourceNotFound f h) <->
  f = fileName /\ h = se_keccak256 entry /\ entry_missing files entry.
Proof.
  intros Hinline Hord.
  pose proof (resolve_source_cases files fileName entry files_truthy Hinline Hord)
    as Hcases.
  destruct (resolve_source _ fileName entry) as [c|err].
  - split; [discriminate|]. intros (_ & _ & Hm). destruct Hcases as (c' & _ & Hv).
    now destruct (entry_verified_exclusive _ _ _ Hv).
  - destruct Hcases as [[-> Hm]|[-> Hm]].
    + split; [discriminate|]. intros (_ & _ & Hm').
      now destruct (entry_mismatch_not_missing files entry).
    + split; [now intros [= <- <-] | now intros (-> & -> & _)].
Qed.

End Upload.

End Assembler.

Lemma Forall_iff_under {A : Type} (Q P1 P2 : A -> Prop) (l : list A) :
  Forall Q l -> (forall x, Q x -> (P1 x <-> P2 x)) ->
  (Forall P1 l <-> Forall P2 l).
Proof.
  intros HQ Hiff. induction HQ as [|x l Hx _ IH]; [split; constructor|].
  rewrite !Forall_cons, IH, (Hiff x Hx). reflexivity.
Qed.

Lemma ordinary_entries_names (declared : list (string * SourceEntry)) :
  Forall ordinary_entry declared -> Forall (fun d => d.1 <> "__proto__") declared.
Proof. intros Ho. eapply Forall_impl; [exact Ho|]. now intros d [Hn _]. Qed.

(** C5, as the code has it, for uploads and inline contents that are not
    empty strings and declared entries that are ordinary: no file is named
    [__proto__] and no declared digest is the name of a member of
    [Object.prototype]. A returned mapping lists exactly the declared
    filenames, in declaration order, each with a text of the declared
    digest: the inline content, or an uploaded file when there is none. The
    call returns exactly when every declared entry can be verified.
    Otherwise it throws for the first declared entry, in declaration order,
    that cannot: the invalid-content error naming the file when the inline
    content of that entry has another digest, the not-found error naming
    the file and its digest when that entry has no inline content and no
    uploaded file has the digest. An uploaded file whose digest no entry
    declares changes nothing. *)
Theorem rearrangeSources_assembles `{Collaborators} (md : Metadata)
    (files : list string) :
  NoDup (sources md).*1 ->
  Forall (fun c => JS.truthy c = true) files ->
  Forall (fun d => forall c, se_content d.2 = Some c -> JS.truthy c = true)
         (sources md) ->
  Forall ordinary_entry (sources md) ->
  (forall out, rearrangeSources md files = Ok out ->
     prototype out = None /\
     Forall2 (fun d o => o.1 = d.1 /\
                exists c, o.2 = Text c /\ entry_verified files d.2 c)
             (sources md) (own_sources out)) /\
  ((exists out, rearrangeSources md files = Ok out) <->
   Forall (fun d => exists c, entry_verified files d.2 c) (sources md)) /\
  (forall f, rearrangeSources md files = Throw (InvalidContent f) <->
     exists pre e post,
       sources md = pre ++ (f, e) :: post /\
       Forall (fun d => exists c, entry_verified files d.2 c) pre /\
       entry_mismatch e) /\
  (forall f h, rearrangeSources md files = Throw (SourceNotFound f h) <->
     exists pre e post,
       sources md = pre ++ (f, e) :: post /\
       Forall (fun d => exists c, entry_verified files d.2 c) pre /\
       h = se_keccak256 e /\ entry_missing files e) /\
  (forall files1 x files2,
     files = files1 ++ files2 ->
     (forall d, d ∈ sources md -> keccak256 x <> se_keccak256 d.2) ->
     rearrangeSources md (files1 ++ x :: files2) = rearrangeSources md files).
Proof.
  intros Hnd Hfiles Hinline Hord. unfold rearrangeSources.
  pose proof (ordinary_entries_names _ Hord) as Hnames.
  assert (Hboth : Forall (fun d =>
            (forall c, se_content d.2 = Some c -> JS.truthy c = true) /\
            is_prototype_member (se_keccak256 d.2) = false) (sources md)).
  { clear -Hinline Hord. induction Hinline as [|d l Hd _ IH]; [constructor|].
    apply Forall_cons in Hord as [[_ Ho] Hl]. constructor; [now split | now apply IH]. }
  assert (Hpre : forall pre d post,
            sources md = pre ++ d :: post ->
            ((forall c, se_content d.2 = Some c -> JS.truthy c = true) /\
             is_prototype_member (se_keccak256 d.2) = false) /\
            (Forall (fun d => exists c,
                       resolve_source (storeByHash files) d.1 d.2 = Ok c) pre
             <-> Forall (fun d => exists c, entry_verified files d.2 c) pre)).
  { intros pre d post Heq. rewrite Heq in Hboth.
    apply Forall_app in Hboth as [Hp [Hd _]%Forall_cons].
    split; [exact Hd|]. apply (Forall_iff_under _ _ _ _ Hp).
    intros x [Hx Hox]. now apply resolve_source_returns. }
  split; [|split; [|split; [|split]]].
  - intros out Hout.
    destruct (rearrange_loop_ok _ _ [] out Hnd Hnames Hout) as (new & -> & Hall).
    simpl. split; [reflexivity|]. clear Hout Hnd Hpre Hnames Hinline Hord.
    induction Hall as [|d o l l' [Hname Hres] _ IH]; [constructor|].
    apply Forall_cons in Hboth as [[Hd Hod] Hl].
    constructor; [|now apply IH]. split; [exact Hname|].
    pose proof (resolve_source_cases files d.1 d.2 Hfiles Hd Hod) as Hcases.
    now rewrite Hres in Hcases.
  - rewrite (rearrange_loop_returns _ _ _ Hnames).
    apply (Forall_iff_under _ _ _ _ Hboth).
    intros x [Hx Hox]. now apply resolve_source_returns.
  - intros f. rewrite (rearrange_loop_throws _ _ _ _ Hnames). split.
    + intros (pre & f0 & e & post & Heq & Hall & Hthrow).
      destruct (Hpre _ _ _ Heq) as [[Hd Hod] Hiff].
      apply (resolve_source_invalid files Hfiles) in Hthrow as [-> Hm];
        [|exact Hd|exact Hod].
      exists pre, e, post. now rewrite <- Hiff.
    + intros (pre & e & post & Heq & Hall & Hm).
      destruct (Hpre _ _ _ Heq) as [[Hd Hod] Hiff].
      exists pre, f, e, post. rewrite Hiff. repeat split; [exact Heq | exact Hall|].
      now apply (resolve_source_invalid files Hfiles).
  - intros f h. rewrite (rearrange_loop_throws _ _ _ _ Hnames). split.
    + intros (pre & f0 & e & post & Heq & Hall & Hthrow).
      destruct (Hpre _ _ _ Heq) as [[Hd Hod] Hiff].
      apply (resolve_source_not_found files Hfiles) in Hthrow as (-> & -> & Hm);
        [|exact Hd|exact Hod].
      exists pre, e, post. now rewrite <- Hiff.
    + intros (pre & e & post & Heq & Hall & -> & Hm).
      destruct (Hpre _ _ _ Heq) as [[Hd Hod] Hiff].
      exists pre, f, e, post. rewrite Hiff. repeat split; [exact Heq | exact Hall|].
      now apply (resolve_source_not_found files Hfiles).
  - intros files1 x files2 -> Hx. apply rearrange_loop_ext.
    intros d Hd. apply storeByHash_extra. now apply Hx.
Qed.

(** Read back by name, the returned properties give every declared file a
    text that verifies its entry. *)
Lemma rearrangeSources_lookup `{Collaborators} (files : list string)
    (declared : list (string * SourceEntry)) (out : list (string * Content)) :
  NoDup declared.*1 ->
  Forall2 (fun d o => o.1 = d.1 /\
             exists c, o.2 = Text c /\ entry_verified files d.2 c) declared out ->
  forall f e, (f, e) ∈ declared ->
    exists c, get_source out f = Some (Text c) /\ entry_verified files e c.
Proof.
  intros Hnd Hall. induction Hall as [|d o l l' [Hname (c & Hc & Hv)] _ IH];
    intros f e Hin; [inversion Hin|].
  rewrite fmap_cons in Hnd. apply NoDup_cons in Hnd as [Hfresh Hnd].
  destruct o as [k v]. simpl in Hname, Hc, Hv |- *. subst k v.
  apply elem_of_cons in Hin as [<-|Hin].
  - exists c. rewrite bool_decide_eq_true_2 by reflexivity. now split.
  - rewrite bool_decide_eq_false_2; [now apply IH|].
    intros Heq. apply Hfresh. rewrite Heq.
    apply list_elem_of_fmap. now exists (f, e).
Qed.

(** With digests that put [0x] before the text: the one declared file is
    found among the uploaded ones, and the file that nothing declares makes
    no difference. *)
Lemma rearrangeSources_assembles_witness :
  Forall2 (fun d o => o.1 = d.1 /\
             exists c, o.2 = Text c /\
               entry_verified (H := Demo.collaborators)
                 ["unused"; "contract A {}"] d.2 c)
          (sources Demo.descriptor) [("A.sol", Text "contract A {}")]
  /\ rearrangeSources (H := Demo.collaborators) Demo.descriptor
       (["unused"] ++ "extra" :: ["contract A {}"])
     = rearrangeSources (H := Demo.collaborators) Demo.descriptor
         ["unused"; "contract A {}"].
Proof.
  assert (Hnd : NoDup (sources Demo.descriptor).*1)
    by (repeat constructor; set_solver).
  assert (Hf : Forall (fun c => JS.truthy c = true) ["unused"; "contract A {}"])
    by (repeat constructor).
  assert (Hi : Forall (fun d : string * SourceEntry =>
                         forall c, se_content d.2 = Some c -> JS.truthy c = true)
                      (sources Demo.descriptor))
    by (repeat constructor; discriminate).
  assert (Ho : Forall ordinary_entry (sources Demo.descriptor)).
  { simpl. constructor; [|constructor].
    split; [discriminate | vm_compute; reflexivity]. }
  destruct (rearrangeSources_assembles (H := Demo.collaborators) Demo.descriptor
              ["unused"; "contract A {}"] Hnd Hf Hi Ho)
    as (Hok & _ & _ & _ & Hextra).
  split.
  - apply (Hok {| own_sources := [("A.sol", Text "contract A {}")];
                  prototype := None |}).
    vm_compute. reflexivity.
  - apply Hextra; [reflexivity|].
    intros d Hd. apply list_elem_of_singleton in Hd as ->. discriminate.
Defined.

(** C5 as stated fails when two entries are at fault: the inline content of
    [B.sol] does not have its declared digest, yet the call throws the
    not-found error of [A.sol], which is declared first, and not the
    invalid-content error. *)
Lemma rearrangeSources_first_failure_counterexample :
  let md := {| compiler_version := "0.6.0";
               compilationTarget := [("A.sol", "A")];
               sources :=
                 [("A.sol", {| se_content := None; se_keccak256 := "0xabsent" |});
                  ("B.sol", {| se_content := Some "tampered";
                               se_keccak256 := "0xoriginal" |})] |} in
  entry_mismatch (H := Demo.collaborators)
    {| se_content := Some "tampered"; se_keccak256 := "0xoriginal" |} /\
  rearrangeSources (H := Demo.collaborators) md ["unrelated"]
  = Throw (SourceNotFound "A.sol" "0xabsent") /\
  rearrangeSources (H := Demo.collaborators) md ["unrelated"]
  <> Throw (InvalidContent "B.sol").
Proof.
  split; [|split].
  - exists "tampered". split; [reflexivity | discriminate].
  - vm_compute. reflexivity.
  - vm_compute. discriminate.
Qed.

(** The inputs that the statement above leaves out. A declared digest
    [constructor] that no uploaded file has is found on [Object.prototype]:
    the call returns, and the file holds that member where a text should
    be. A file named [__proto__] leaves no property in the returned
    object. *)
Lemma rearrangeSources_prototype_members :
  rearrangeSources (H := Demo.collaborators)
    {| compiler_version := "0.6.0";
       compilationTarget := [("A.sol", "A")];
       sources := [("A.sol", {| se_content := None;
                                se_keccak256 := "constructor" |})] |} []
  = Ok {| own_sources := [("A.sol", PrototypeMember "constructor")];
          prototype := None |} /\
  rearrangeSources (H := Demo.collaborators)
    {| compiler_version := "0.6.0";
       compilationTarget := [("A.sol", "A")];
       sources := [("__proto__", {| se_content := None;
                                    se_keccak256 := "0xcontract A {}" |})] |}
    ["contract A {}"]
  = Ok {| own_sources := []; prototype := None |}.
Proof. split; vm_compute; reflexivity. Qed.

(** ** The stored paths *)

(** The first replacement leaves only characters of the class. *)
Lemma replace_outside_class_chars (s : string) :
  Forall (fun c => path_char c = true)
         (list_ascii_of_string (replace_outside_class s)).
Proof.
  induction s as [|c s IH]; simpl; constructor; [|exact IH].
  destruct (path_char c) eqn:E; [exact E | reflexivity].
Qed.

(** C6, at a failing input. Only the first segment of dots is replaced:
    the name [a/../b/../c] keeps a [..] segment after sanitization, and
    the source named [a/../../../../metadata.json] is saved over the
    metadata file of the address, outside its [sources] directory (the
    store is run on a disk that takes every write). *)
Theorem sanitizedPath_keeps_dot_segment :
  sanitizedPath "a/../b/../c" = "a_b/../c" /\
  ".." ∈ NodePath.split (sanitizedPath "a/../b/../c") /\
  sanitizedPath "a/../../../../metadata.json" = "a_../../../metadata.json" /\
  storePartialMatchData (disk := Demo.file_system) "repo" "1" "0xA"
    {| bytecode := "6000"; deployedBytecode := "0x60000000"; metadata := "{}" |}
    [("a/../../../../metadata.json", "forged")] []
  = (Ok tt,
     [Saved "repo/contracts/partial_match/1/0xA/metadata.json" "{}";
      Saved "repo/contracts/partial_match/1/0xA/metadata.json" "forged"]).
Proof.
  split; [vm_compute; reflexivity|].
  split; [vm_compute; set_solver|].
  split; vm_compute; reflexivity.
Qed.

(** C8, at a failing input. On a partial match at [0xA] a source whose name
    climbs out of the [sources] directory is saved under [full_match], as
    the metadata of another address (the store and the run are on a disk
    that takes every write). *)
Theorem partial_match_writes_full_match_path :
  storePartialMatchData (disk := Demo.file_system) "repo" "1" "0xA"
    {| bytecode := "6000"; deployedBytecode := "0x60000000"; metadata := "{}" |}
    [("x/../../../../../../../full_match/1/0xB/metadata.json", "forged")] []
  = (Ok tt,
     [Saved "repo/contracts/partial_match/1/0xA/metadata.json" "{}";
      Saved "repo/contracts/full_match/1/0xB/metadata.json" "forged"]) /\
  inject (H := Demo.collaborators) (disk := Demo.file_system) Demo.injector
    {| repository := "repo"; chain := "1"; addresses := [Some "0xA"];
       files :=
         [{| source_metadata := Demo.descriptor;
             solidity :=
               [("x/../../../../../../../full_match/1/0xB/metadata.json",
                 "forged")] |}];
       inputData_bytecode := None |} []
  = (Ok {| address := Some "0xA"; status := Some partial |},
     [Compiled "A.sol" "A"; GetCode "0xA";
      Compared (Some "0x6000aa0001") "0x60000000";
      Saved "repo/contracts/partial_match/1/0xA/metadata.json" "{}";
      Saved "repo/contracts/full_match/1/0xB/metadata.json" "forged"]).
Proof. split; vm_compute; reflexivity. Qed.

(** ** The legacy scan *)

Lemma without_comparisons_app (l1 l2 : list Event) :
  without_comparisons (l1 ++ l2)
  = without_comparisons l1 ++ without_comparisons l2.
Proof.
  induction l1 as [|e l1 IH]; [reflexivity|].
  destruct e; simpl; now rewrite IH.
Qed.

Lemma read_events_without_comparisons `{Collaborators} (this : Injector)
    (chain a : string) :
  without_comparisons (read_events this chain a) = read_events this chain a.
Proof.
  unfold read_events, read_deployed, getBytecode, checksum. run_monad.
  destruct (chains this chain) as [web3|]; simpl; [|reflexivity].
  destruct (toChecksumAddress a) as [a'|]; simpl; [|reflexivity].
  destruct (eth_getCode web3 a'); reflexivity.
Qed.

(** With the current [getBytecode] in the place of the imported one, the
    [try] block of the legacy scan is that of the current scan. *)
Lemma legacy_read_deployed `{Collaborators} (this : Injector)
    (chain a : string) (tr : list Event) :
  Legacy.read_deployed getBytecode_as_imported this chain a tr
  = read_deployed this chain a tr.
Proof.
  unfold Legacy.read_deployed, read_deployed, getBytecode_as_imported, try_catch.
  unfold mbind at 1 3, M_bind at 1 3.
  destruct (or_throw "chains" (chains this chain) tr) as [[web3|e] tr1];
    [|reflexivity].
  unfold mbind, M_bind. now destruct (getBytecode web3 a tr1) as [[code|e] tr2].
Qed.

(** When the two functions that [src/injector.ts] imports from
    [./utils] are those of the current injector, [trimMetadata] as the
    trimming function and [getBytecode] as the reader of on-chain code, the
    legacy scan returns what the current scan returns and causes the same
    events, the comparisons left out. *)
Lemma legacy_scan_agrees `{Collaborators} (this : Injector) (chain : string)
    (addrs : list (option string)) (compiled : string) (tr : list Event) :
  Legacy.matchBytecodeToAddress trimMetadata getBytecode_as_imported
    this chain addrs compiled (without_comparisons tr)
  = (let '(r, tr') := matchBytecodeToAddress this chain addrs compiled tr in
     (r, without_comparisons tr')).
Proof.
  revert tr. induction addrs as [|a rest IH]; intros tr; [reflexivity|].
  destruct (a ≫= toChecksumAddress) as [a'|] eqn:Ha.
  - destruct a as [x|]; [|discriminate]. simpl in Ha.
    rewrite (scan_step _ _ _ _ _ _ _ Ha). cbn zeta.
    cbn [Legacy.matchBytecodeToAddress]. unfold checksum.
    unfold mbind at 1, M_bind at 1. cbn [mbind option_bind]. rewrite Ha.
    unfold or_throw at 1, mret at 1, M_ret at 1.
    unfold mbind at 1, M_bind at 1.
    rewrite legacy_read_deployed, read_deployed_frame.
    assert (Htr : without_comparisons tr ++ read_events this chain a'
                  = without_comparisons
                      (tr ++ read_events this chain a'
                          ++ [Compared (onChainCode this chain a') compiled])).
    { rewrite !without_comparisons_app, read_events_without_comparisons.
      simpl. now rewrite app_nil_r. }
    rewrite Htr. unfold compareBytecodes.
    destruct (onChainCode this chain a') as [d|]; [|apply IH].
    destruct (JS.truthy d && (2 <? JS.length d)); [|apply IH].
    case_bool_decide; [reflexivity|].
    case_bool_decide; [reflexivity | apply IH].
  - rewrite (scan_invalid _ _ _ _ _ _ Ha).
    cbn [Legacy.matchBytecodeToAddress]. unfold checksum.
    unfold mbind at 1, M_bind at 1. rewrite Ha. reflexivity.
Qed.

(* ===================================================================== *)
(** * Part III: further properties of the code *)
(* ===================================================================== *)

(** ** Strings, again *)

Lemma string_app_length (s t : string) :
  String.length (s +:+ t) = (String.length s + String.length t)%nat.
Proof. induction s as [|c s IH]; simpl; [reflexivity | now rewrite IH]. Qed.

Lemma string_app_assoc (s t u : string) :
  (s +:+ t) +:+ u = s +:+ t +:+ u.
Proof.
  induction s as [|c s IH]; [reflexivity|].
  change (String c ((s +:+ t) +:+ u) = String c (s +:+ t +:+ u)).
  now rewrite IH.
Qed.

Lemma string_app_empty_r (s : string) : s +:+ "" = s.
Proof.
  induction s as [|c s IH]; [reflexivity|].
  change (String c (s +:+ "") = String c s). now rewrite IH.
Qed.

Lemma substring_app_head (s t : string) :
  String.substring 0 (String.length s) (s +:+ t) = s.
Proof. induction s as [|c s IH]; simpl; [now destruct t | now rewrite IH]. Qed.

Lemma substring_app_tail (s t : string) :
  String.substring (String.length s) (String.length t) (s +:+ t) = t.
Proof. induction s as [|c s IH]; simpl; [apply substring_whole | exact IH]. Qed.

Lemma slice_last (s t : string) (k : Z) :
  0 < k -> JS.length t = k ->
  JS.slice (s +:+ t) (JS.Num (- k)) None = t.
Proof.
  intros Hk Hlen. unfold JS.slice, JS.length in *. cbn [JS.toInteger].
  rewrite string_app_length.
  assert (Hfrom : JS.relative_index
                    (Z.of_nat (String.length s + String.length t)) (- k)
                  = Z.of_nat (String.length s)).
  { unfold JS.relative_index. destruct (Z.ltb_spec (- k) 0); lia. }
  rewrite Hfrom.
  replace (Z.to_nat (Z.max _ 0)) with (String.length t) by lia.
  rewrite Nat2Z.id. apply substring_app_tail.
Qed.

(** ** Trimming a well-formed trailer *)

Lemma trimMetadata_trailer (body meta size : string) (n : Z) :
  JS.length size = 4 ->
  JS.parseInt size 16 = JS.Num n ->
  JS.length meta = 2 * n ->
  trimMetadata (body +:+ meta +:+ size) = body.
Proof.
  intros Hsize Hn Hmeta.
  assert (Hlast : JS.slice (body +:+ meta +:+ size) (JS.Num (-4)) None = size).
  { rewrite <- string_app_assoc.
    now apply (slice_last _ _ 4). }
  rewrite (trimMetadata_declared _ n) by now rewrite Hlast.
  unfold JS.length in *. rewrite !string_app_length.
  unfold JS.relative_index.
  destruct (Z.ltb_spec (Z.of_nat (String.length body
               + (String.length meta + String.length size)) - (n * 2 + 4)) 0);
    [lia|].
  replace (Z.to_nat _) with (String.length body) by lia.
  apply substring_app_head.
Qed.

(** Code that ends in a metadata blob of [n] bytes followed by the two
    size bytes that spell [n]: trimming gives back the code before the
    blob, [2 * n + 4] characters shorter. *)
Theorem trimMetadata_strips_trailer (body meta size : string) (n : Z) :
  JS.length size = 4 ->
  JS.parseInt size 16 = JS.Num n ->
  JS.length meta = 2 * n ->
  trimMetadata (body +:+ meta +:+ size) = body /\
  JS.length (trimMetadata (body +:+ meta +:+ size)) + (2 * n + 4)
  = JS.length (body +:+ meta +:+ size).
Proof.
  intros Hsize Hn Hmeta.
  rewrite (trimMetadata_trailer _ _ _ _ Hsize Hn Hmeta). split; [reflexivity|].
  unfold JS.length in *. rewrite !string_app_length. lia.
Qed.

Lemma trimMetadata_strips_trailer_witness :
  trimMetadata ("0x6000" +:+ "a165627a7a72" +:+ "0006") = "0x6000" /\
  JS.length (trimMetadata ("0x6000" +:+ "a165627a7a72" +:+ "0006")) + (2 * 6 + 4)
  = JS.length ("0x6000" +:+ "a165627a7a72" +:+ "0006").
Proof.
  apply (trimMetadata_strips_trailer "0x6000" "a165627a7a72" "0006" 6);
    vm_compute; reflexivity.
Defined.

(** Two codes with the same body and well-formed trailers that differ
    compare partial, whichever is the deployed one, as soon as the deployed
    one has more than two characters. *)
Theorem trailer_only_difference_is_partial
    (body meta1 size1 meta2 size2 : string) (n1 n2 : Z) :
  JS.length size1 = 4 -> JS.parseInt size1 16 = JS.Num n1 ->
  JS.length meta1 = 2 * n1 ->
  JS.length size2 = 4 -> JS.parseInt size2 16 = JS.Num n2 ->
  JS.length meta2 = 2 * n2 ->
  body +:+ meta1 +:+ size1 <> body +:+ meta2 +:+ size2 ->
  compareBytecodes (Some (body +:+ meta1 +:+ size1)) (body +:+ meta2 +:+ size2)
  = Some partial.
Proof.
  intros Hs1 Hn1 Hm1 Hs2 Hn2 Hm2 Hne.
  rewrite compareBytecodes_long.
  - rewrite bool_decide_eq_false_2 by exact Hne.
    rewrite (trimMetadata_trailer _ _ _ _ Hs1 Hn1 Hm1).
    rewrite (trimMetadata_trailer _ _ _ _ Hs2 Hn2 Hm2).
    now rewrite bool_decide_eq_true_2.
  - unfold JS.length in *. rewrite !string_app_length. lia.
Qed.

Lemma trailer_only_difference_is_partial_witness :
  compareBytecodes (Some ("0x6000" +:+ "a165627a7a72" +:+ "0006"))
    ("0x6000" +:+ "a264" +:+ "0002")
  = Some partial.
Proof.
  apply (trailer_only_difference_is_partial "0x6000" "a165627a7a72" "0006"
           "a264" "0002" 6 2); vm_compute; (reflexivity || discriminate).
Defined.

(** For two codes of more than two characters the comparison does not
    depend on which of them is the deployed one. *)
Theorem compareBytecodes_symmetric (a b : string) :
  2 < JS.length a -> 2 < JS.length b ->
  compareBytecodes (Some a) b = compareBytecodes (Some b) a.
Proof.
  intros Ha Hb. rewrite !compareBytecodes_long by assumption.
  repeat case_bool_decide; congruence.
Qed.

Lemma compareBytecodes_symmetric_witness :
  compareBytecodes (Some "0x6000aa0001") "0x60000000"
  = compareBytecodes (Some "0x60000000") "0x6000aa0001".
Proof.
  apply compareBytecodes_symmetric; vm_compute; reflexivity.
Defined.

(** A partial match means a shared head: what trimming leaves of the
    deployed code is a prefix of the deployed and of the compiled code. *)
Theorem partial_match_shares_head (deployed compiled : string) :
  compareBytecodes (Some deployed) compiled = Some partial ->
  String.prefix (trimMetadata deployed) deployed = true /\
  String.prefix (trimMetadata deployed) compiled = true /\
  deployed <> compiled /\ 2 < JS.length deployed.
Proof.
  intros Hp.
  destruct (Z.le_gt_cases (JS.length deployed) 2) as [Hshort|Hlong].
  { now rewrite compareBytecodes_short in Hp. }
  rewrite compareBytecodes_long in Hp by exact Hlong.
  case_bool_decide as Heq; [discriminate|].
  case_bool_decide as Htrim; [|discriminate].
  destruct (trimMetadata_is_head deployed) as [k Hk].
  destruct (trimMetadata_is_head compiled) as [k' Hk'].
  split; [rewrite Hk; apply substring_head_prefix|].
  split; [rewrite Htrim, Hk'; apply substring_head_prefix|].
  now split.
Qed.

Lemma partial_match_shares_head_witness :
  String.prefix (trimMetadata "0x6000aa0001") "0x6000aa0001" = true /\
  String.prefix (trimMetadata "0x6000aa0001") "0x60000000" = true /\
  "0x6000aa0001" <> "0x60000000" /\ 2 < JS.length "0x6000aa0001".
Proof.
  apply partial_match_shares_head. vm_compute. reflexivity.
Defined.

(** ** Sanitized names *)

Lemma skip_dots_cons (c : ascii) (t : string) :
  skip_dots (String c t)
  = if Ascii.eqb c "."%char then skip_dots t else String c t.
Proof. destruct c as [[] [] [] [] [] [] [] []]; reflexivity. Qed.

Lemma match_dots_cons (c : ascii) (t : string) :
  match_dots (String c t)
  = if Ascii.eqb c "."%char then
      match skip_dots t with
      | EmptyString => Some EmptyString
      | String x r => if Ascii.eqb x "/"%char then Some r else None
      end
    else None.
Proof.
  destruct c as [[] [] [] [] [] [] [] []]; try reflexivity.
  simpl. destruct (skip_dots t) as [|x r]; [reflexivity|].
  destruct x as [[] [] [] [] [] [] [] []]; reflexivity.
Qed.

Lemma match_dot_segment_cons (at_start : bool) (c : ascii) (t : string) :
  match_dot_segment at_start (String c t)
  = match (if at_start then match_dots (String c t) else None) with
    | Some r => Some r
    | None => if Ascii.eqb c "/"%char then match_dots t else None
    end.
Proof.
  unfold match_dot_segment. destruct (if at_start then _ else _); [reflexivity|].
  destruct c as [[] [] [] [] [] [] [] []]; reflexivity.
Qed.

Lemma skip_dots_part (P : ascii -> Prop) (t : string) :
  (String.length (skip_dots t) <= String.length t)%nat /\
  (Forall P (list_ascii_of_string t) ->
   Forall P (list_ascii_of_string (skip_dots t))).
Proof.
  induction t as [|c t [IHl IHp]]; [now split|].
  rewrite skip_dots_cons. destruct (Ascii.eqb c "."%char).
  - split; [simpl; lia|]. simpl. intros [_ Ht]%Forall_cons. now apply IHp.
  - now split.
Qed.

Lemma match_dots_part (P : ascii -> Prop) (s r : string) :
  match_dots s = Some r ->
  (String.length r < String.length s)%nat /\
  (Forall P (list_ascii_of_string s) -> Forall P (list_ascii_of_string r)).
Proof.
  destruct s as [|c t]; [discriminate|]. rewrite match_dots_cons.
  destruct (Ascii.eqb c "."%char); [|discriminate].
  destruct (skip_dots_part P t) as [Hl Hp].
  destruct (skip_dots t) as [|x r'] eqn:Hskip.
  - intros [= <-]. split; [simpl; lia | intros _; constructor].
  - destruct (Ascii.eqb x "/"%char); [|discriminate]. intros [= <-].
    split; [simpl in *; lia|]. simpl. intros [_ Ht]%Forall_cons.
    specialize (Hp Ht). simpl in Hp. now apply Forall_cons in Hp as [_ Hp].
Qed.

Lemma match_dot_segment_part (P : ascii -> Prop) (at_start : bool) (s r : string) :
  match_dot_segment at_start s = Some r ->
  (String.length r < String.length s)%nat /\
  (Forall P (list_ascii_of_string s) -> Forall P (list_ascii_of_string r)).
Proof.
  destruct s as [|c t]; [now destruct at_start|].
  rewrite match_dot_segment_cons.
  destruct (if at_start then match_dots (String c t) else None) as [r0|] eqn:H0.
  - intros [= <-]. destruct at_start; [|discriminate].
    now apply match_dots_part.
  - destruct (Ascii.eqb c "/"%char); [|discriminate]. intros Hr.
    destruct (match_dots_part P _ _ Hr) as [Hl Hp].
    split; [simpl; lia|]. simpl. intros [_ Ht]%Forall_cons. now apply Hp.
Qed.

Lemma replace_dot_segment_part (P : ascii -> Prop) (at_start : bool) (s : string) :
  P "_"%char ->
  (String.length (replace_dot_segment at_start s) <= String.length s)%nat /\
  (Forall P (list_ascii_of_string s) ->
   Forall P (list_ascii_of_string (replace_dot_segment at_start s))).
Proof.
  intros HP. revert at_start. induction s as [|c t IH]; intros at_start.
  - destruct at_start; now split.
  - cbn [replace_dot_segment].
    destruct (match_dot_segment at_start (String c t)) as [r|] eqn:Hm.
    + destruct (match_dot_segment_part P _ _ _ Hm) as [Hl Hp].
      split; [simpl in *; lia|]. intros Hs. simpl. constructor; [exact HP|].
      now apply Hp.
    + destruct (IH false) as [Hl Hp]. split; [simpl; lia|].
      simpl. intros [Hc Ht]%Forall_cons. constructor; [exact Hc | now apply Hp].
Qed.

Lemma replace_outside_class_length (s : string) :
  String.length (replace_outside_class s) = String.length s.
Proof. induction s as [|c s IH]; simpl; [reflexivity | now rewrite IH]. Qed.

(** Whatever the source name, its sanitized form is written with
    characters of [[a-zA-Z0-9_./-]] only and is not longer than the name. *)
Theorem sanitizedPath_charset (sourcePath : string) :
  Forall (fun c => path_char c = true)
         (list_ascii_of_string (sanitizedPath sourcePath)) /\
  (String.length (sanitizedPath sourcePath) <= String.length sourcePath)%nat.
Proof.
  unfold sanitizedPath.
  destruct (replace_dot_segment_part (fun c => path_char c = true) true
              (replace_outside_class sourcePath) eq_refl) as [Hl Hp].
  split; [apply Hp, replace_outside_class_chars|].
  now rewrite replace_outside_class_length in Hl.
Qed.

Lemma skip_dots_replace (t r : string) (x : ascii) :
  skip_dots t = String x r -> Ascii.eqb x "/"%char = false ->
  exists r', skip_dots (replace_dot_segment false t) = String x r'.
Proof.
  induction t as [|c t IH]; [discriminate|].
  rewrite skip_dots_cons. intros Hskip Hx. cbn [replace_dot_segment].
  rewrite match_dot_segment_cons.
  destruct (Ascii.eqb c "."%char) eqn:Hc.
  - apply Ascii.eqb_eq in Hc as ->. cbn [Ascii.eqb Bool.eqb].
    rewrite skip_dots_cons. cbn [Ascii.eqb Bool.eqb]. now apply IH.
  - injection Hskip as -> ->. rewrite Hx.
    rewrite skip_dots_cons, Hc. eauto.
Qed.

Lemma match_dots_replace (at_start : bool) (t : string) :
  (at_start = false -> match_dots t = None) ->
  match_dots (replace_dot_segment at_start t) = None.
Proof.
  intros Hstart. destruct t as [|c t]; [now destruct at_start|].
  cbn [replace_dot_segment].
  destruct (match_dot_segment at_start (String c t)) as [r|] eqn:Hm;
    [reflexivity|].
  assert (Hnone : match_dots (String c t) = None).
  { destruct at_start; [|now apply Hstart].
    rewrite match_dot_segment_cons in Hm.
    now destruct (match_dots (String c t)). }
  rewrite match_dots_cons in Hnone |- *.
  destruct (Ascii.eqb c "."%char); [|reflexivity].
  destruct (skip_dots t) as [|x r] eqn:Hskip; [discriminate|].
  destruct (Ascii.eqb x "/"%char) eqn:Hx; [discriminate|].
  destruct (skip_dots_replace _ _ _ Hskip Hx) as [r' ->]. now rewrite Hx.
Qed.

Lemma skip_dots_dots (k : nat) (rest : string) :
  skip_dots (dots k +:+ rest) = skip_dots rest.
Proof.
  induction k as [|k IH]; [reflexivity|].
  change (dots (S k) +:+ rest) with (String "."%char (dots k +:+ rest)).
  now rewrite skip_dots_cons.
Qed.

(** The sanitized name never begins with a segment made of dots: it is not
    a run of dots, and it is not a run of dots followed by a slash. Under
    the [sources] directory its first segment therefore does not climb. *)
Theorem sanitizedPath_first_segment (sourcePath : string) (k : nat)
    (rest : string) :
  sanitizedPath sourcePath <> dots (S k) /\
  sanitizedPath sourcePath <> dots (S k) +:+ String "/"%char rest.
Proof.
  assert (Hnone : match_dots (sanitizedPath sourcePath) = None)
    by (apply match_dots_replace; discriminate).
  split; intros Heq; rewrite Heq in Hnone.
  - rewrite <- (string_app_empty_r (dots (S k))) in Hnone.
    change (dots (S k) +:+ "") with (String "."%char (dots k +:+ "")) in Hnone.
    rewrite match_dots_cons, skip_dots_dots in Hnone. discriminate.
  - change (dots (S k) +:+ String "/"%char rest)
      with (String "."%char (dots k +:+ String "/"%char rest)) in Hnone.
    rewrite match_dots_cons, skip_dots_dots in Hnone. discriminate.
Qed.

Lemma split_cons (c : ascii) (t : string) :
  NodePath.split (String c t)
  = if Ascii.eqb c "/"%char then EmptyString :: NodePath.split t
    else match NodePath.split t with
         | seg :: segs => String c seg :: segs
         | [] => [String c EmptyString]
         end.
Proof. reflexivity. Qed.

Lemma split_nonempty (t : string) : NodePath.split t <> [].
Proof.
  destruct t as [|c t]; [discriminate|]. rewrite split_cons.
  destruct (Ascii.eqb c "/"%char); [discriminate|].
  now destruct (NodePath.split t).
Qed.

Lemma split_dots (k : nat) (t : string) :
  NodePath.split (dots k +:+ t)
  = match NodePath.split t with
    | seg :: segs => (dots k +:+ seg) :: segs
    | [] => [dots k]
    end.
Proof.
  induction k as [|k IH].
  - change (dots 0 +:+ t) with t.
    destruct (NodePath.split t) as [|seg segs] eqn:Hs;
      [now destruct (split_nonempty t) | reflexivity].
  - change (dots (S k) +:+ t) with (String "."%char (dots k +:+ t)).
    rewrite split_cons, IH. cbn [Ascii.eqb Bool.eqb].
    now destruct (NodePath.split t).
Qed.

Lemma skip_dots_decomp (t : string) : exists k, t = dots k +:+ skip_dots t.
Proof.
  induction t as [|c t [k IH]]; [now exists 0%nat|].
  rewrite skip_dots_cons. destruct (Ascii.eqb c "."%char) eqn:Hc.
  - apply Ascii.eqb_eq in Hc as ->. exists (S k).
    change (dots (S k) +:+ skip_dots t)
      with (String "."%char (dots k +:+ skip_dots t)).
    now rewrite <- IH.
  - now exists 0%nat.
Qed.

(** A match of the dots pattern at the head of [t] means that the first
    segment of [t] is a run of dots. *)
Lemma match_dots_first_segment (t r : string) :
  match_dots t = Some r ->
  exists k segs, NodePath.split t = dots (S k) :: segs.
Proof.
  destruct t as [|c t]; [discriminate|]. rewrite match_dots_cons.
  destruct (Ascii.eqb c "."%char) eqn:Hc; [|discriminate].
  apply Ascii.eqb_eq in Hc as ->. destruct (skip_dots_decomp t) as [k Hk].
  destruct (skip_dots t) as [|x r'] eqn:Hskip.
  - intros _. exists k, []. rewrite Hk.
    change (String "."%char (dots k +:+ "")) with (dots (S k) +:+ "").
    rewrite split_dots. cbn [NodePath.split]. now rewrite string_app_empty_r.
  - destruct (Ascii.eqb x "/"%char) eqn:Hx; [|discriminate].
    apply Ascii.eqb_eq in Hx as ->. intros _. exists k, (NodePath.split r').
    rewrite Hk.
    change (String "."%char (dots k +:+ String "/"%char r'))
      with (dots (S k) +:+ String "/"%char r').
    rewrite split_dots, split_cons. cbn [Ascii.eqb Bool.eqb].
    now rewrite string_app_empty_r.
Qed.

Lemma replace_dot_segment_inner (t : string) :
  Forall (fun seg => forall k, seg <> dots (S k)) (tail (NodePath.split t)) ->
  replace_dot_segment false t = t.
Proof.
  induction t as [|c t IH]; [reflexivity|].
  rewrite split_cons. cbn [replace_dot_segment].
  rewrite match_dot_segment_cons. destruct (Ascii.eqb c "/"%char) eqn:Hc.
  - cbn [tail]. intros Hall.
    destruct (match_dots t) as [r|] eqn:Hm.
    + destruct (match_dots_first_segment _ _ Hm) as (k & segs & Hsplit).
      rewrite Hsplit in Hall. apply Forall_cons in Hall as [Hhead _].
      now destruct (Hhead k).
    + rewrite IH; [reflexivity|].
      destruct (NodePath.split t); [constructor|].
      now apply Forall_cons in Hall as [_ Hall].
  - intros Hall. rewrite IH; [reflexivity|].
    now destruct (NodePath.split t).
Qed.

Lemma replace_dot_segment_whole (s : string) :
  Forall (fun seg => forall k, seg <> dots (S k)) (NodePath.split s) ->
  replace_dot_segment true s = s.
Proof.
  destruct s as [|c t]; [reflexivity|]. intros Hall.
  cbn [replace_dot_segment]. rewrite match_dot_segment_cons.
  destruct (match_dots (String c t)) as [r|] eqn:Hm.
  { destruct (match_dots_first_segment _ _ Hm) as (k & segs & Hsplit).
    rewrite Hsplit in Hall. apply Forall_cons in Hall as [Hhead _].
    now destruct (Hhead k). }
  rewrite split_cons in Hall. destruct (Ascii.eqb c "/"%char).
  - apply Forall_cons in Hall as [_ Hall].
    destruct (match_dots t) as [r|] eqn:Hm'.
    + destruct (match_dots_first_segment _ _ Hm') as (k & segs & Hsplit).
      rewrite Hsplit in Hall. apply Forall_cons in Hall as [Hhead _].
      now destruct (Hhead k).
    + rewrite replace_dot_segment_inner; [reflexivity|].
      destruct (NodePath.split t); [constructor|].
      now apply Forall_cons in Hall as [_ Hall].
  - rewrite replace_dot_segment_inner; [reflexivity|].
    destruct (NodePath.split t) as [|seg segs]; [constructor|].
    now apply Forall_cons in Hall as [_ Hall].
Qed.

Lemma replace_outside_class_id (s : string) :
  Forall (fun c => path_char c = true) (list_ascii_of_string s) ->
  replace_outside_class s = s.
Proof.
  induction s as [|c s IH]; [reflexivity|]. simpl.
  intros [Hc Hs]%Forall_cons. now rewrite Hc, IH.
Qed.

(** An ordinary name is stored under itself: a name written with the
    characters of the class, none of whose slash-separated segments is a
    run of dots, is its own sanitized form. *)
Theorem sanitizedPath_ordinary_name (sourcePath : string) :
  Forall (fun c => path_char c = true) (list_ascii_of_string sourcePath) ->
  Forall (fun seg => forall k, seg <> dots (S k)) (NodePath.split sourcePath) ->
  sanitizedPath sourcePath = sourcePath.
Proof.
  intros Hchars Hsegs. unfold sanitizedPath.
  rewrite (replace_outside_class_id _ Hchars).
  now apply replace_dot_segment_whole.
Qed.

Lemma sanitizedPath_ordinary_name_witness :
  sanitizedPath "contracts/token/ERC20.sol" = "contracts/token/ERC20.sol".
Proof.
  apply sanitizedPath_ordinary_name.
  - vm_compute. repeat constructor.
  - vm_compute. repeat constructor; intros k; discriminate.
Defined.

(** ** The index of uploaded files *)

(** The read [byHash[h]] of the index that [storeByHash] builds. A
    text that is read is an uploaded file with the digest [h]. Nothing
    ([undefined]) is read exactly when no uploaded file has the digest and
    [h] names no member of [Object.prototype]. Of several files with one
    digest, other than [__proto__], the last uploaded is the one read. A
    member of [Object.prototype] is read only under its own name, and only
    when no uploaded file is held under that name; under [__proto__] it is
    read whatever the upload. *)
Theorem storeByHash_lookup `{Collaborators} (files : list string) (h : string) :
  (forall c, read_property (storeByHash files) h = Some (Text c) ->
     c ∈ files /\ keccak256 c = h) /\
  (read_property (storeByHash files) h = None <->
   (forall c, c ∈ files -> keccak256 c <> h) /\ is_prototype_member h = false) /\
  (forall pre f post,
     files = pre ++ f :: post -> keccak256 f = h -> h <> "__proto__" ->
     (forall c, c ∈ post -> keccak256 c <> h) ->
     read_property (storeByHash files) h = Some (Text f)) /\
  (forall name,
     read_property (storeByHash files) h = Some (PrototypeMember name) ->
     name = h /\ is_prototype_member h = true /\
     (h = "__proto__" \/ forall c, c ∈ files -> keccak256 c <> h)) /\
  read_property (storeByHash files) "__proto__"
  = Some (PrototypeMember "__proto__").
Proof.
  unfold read_property, storeByHash. split; [|split; [|split; [|split]]].
  - intros c Hl. destruct (fold_left _ files ∅ !! h) as [c'|] eqn:Hown.
    + injection Hl as ->.
      apply storeByHash_fold_some in Hown as [(Hin & Hk & _)|Hown];
        [now split | now rewrite lookup_empty in Hown].
    + destruct (is_prototype_member h); discriminate.
  - destruct (fold_left _ files ∅ !! h) as [c'|] eqn:Hown.
    + split; [discriminate|]. intros [Hall _].
      apply storeByHash_fold_some in Hown as [(Hin & Hk & _)|Hown];
        [now destruct (Hall c') | now rewrite lookup_empty in Hown].
    + destruct (is_prototype_member h) eqn:Hm.
      * split; [discriminate | now intros [_ ?]].
      * split; [|reflexivity]. intros _. split; [|reflexivity].
        apply storeByHash_fold_none in Hown as [_ Hown];
          [exact Hown | now apply prototype_member_proto].
  - intros pre f post -> Hf Hp Hpost. rewrite fold_left_app. simpl.
    set (m := write_property _ (keccak256 f) f).
    assert (Hm : m !! h = Some f).
    { subst m. rewrite lookup_write_property.
      rewrite bool_decide_eq_false_2 by congruence.
      now rewrite bool_decide_eq_true_2. }
    clearbody m.
    assert (Hfold : fold_left
              (fun byHash file => write_property byHash (keccak256 file) file)
              post m !! h = Some f).
    { revert m Hm. clear -Hpost.
      induction post as [|c post IH]; intros m Hm; [exact Hm|]. simpl.
      apply IH.
      - intros c' Hc'. apply Hpost. now right.
      - rewrite lookup_write_property. case_bool_decide; [exact Hm|].
        rewrite bool_decide_eq_false_2; [exact Hm|]. apply Hpost. left. }
    now rewrite Hfold.
  - intros name Hl. destruct (fold_left _ files ∅ !! h) as [c'|] eqn:Hown;
      [discriminate|].
    destruct (is_prototype_member h) eqn:Hm; [|discriminate].
    injection Hl as <-. split; [reflexivity|]. split; [reflexivity|].
    destruct (decide (h = "__proto__")) as [Hp|Hp]; [now left | right].
    now apply storeByHash_fold_none in Hown as [_ Hown].
  - now rewrite storeByHash_fold_proto, lookup_empty.
Qed.

Lemma storeByHash_lookup_witness :
  read_property (storeByHash (H := Demo.collaborators) ["a"; "b"; "a"]) "0xa"
  = Some (Text "a").
Proof.
  apply (proj1 (proj2 (proj2 (storeByHash_lookup (H := Demo.collaborators)
                                ["a"; "b"; "a"] "0xa"))) ["a"; "b"] "a" []).
  - reflexivity.
  - reflexivity.
  - discriminate.
  - intros c Hc. inversion Hc.
Defined.

(** When no two uploaded files share a digest, the order of the upload
    does not matter to the assembly: any rearrangement of the files gives
    the same result, mapping or error. *)
Theorem rearrangeSources_upload_order `{Collaborators} (md : Metadata)
    (files1 files2 : list string) :
  files1 ≡ₚ files2 ->
  (forall a b, a ∈ files1 -> b ∈ files1 -> keccak256 a = keccak256 b -> a = b) ->
  rearrangeSources md files1 = rearrangeSources md files2.
Proof.
  intros Hperm Hinj. unfold rearrangeSources. apply rearrange_loop_ext.
  intros d _. set (h := se_keccak256 d.2).
  unfold storeByHash.
  destruct (decide (h = "__proto__")) as [->|Hp];
    [now rewrite !storeByHash_fold_proto|].
  destruct (fold_left _ files1 ∅ !! h) as [c|] eqn:H1.
  - apply storeByHash_fold_some in H1 as [(Hin & Hk & _)|H1];
      [|now rewrite lookup_empty in H1].
    destruct (fold_left _ files2 ∅ !! h) as [c'|] eqn:H2.
    + apply storeByHash_fold_some in H2 as [(Hin' & Hk' & _)|H2];
        [|now rewrite lookup_empty in H2].
      f_equal. apply Hinj; [exact Hin | now rewrite Hperm | congruence].
    + apply storeByHash_fold_none in H2 as [_ H2]; [|exact Hp].
      destruct (H2 c); [now rewrite <- Hperm | exact Hk].
  - apply storeByHash_fold_none in H1 as [_ H1]; [|exact Hp]. symmetry.
    apply storeByHash_fold_none; [exact Hp|]. split; [apply lookup_empty|].
    intros c Hc. apply H1. now rewrite Hperm.
Qed.

Lemma rearrangeSources_upload_order_witness :
  rearrangeSources (H := Demo.collaborators) Demo.descriptor
    ["unused"; "contract A {}"]
  = rearrangeSources (H := Demo.collaborators) Demo.descriptor
      ["contract A {}"; "unused"].
Proof.
  apply (rearrangeSources_upload_order (H := Demo.collaborators)).
  - apply Permutation_swap.
  - intros a b _ _ Hk. now injection Hk.
Defined.

(** ** Validation *)

Lemma validateAddresses_spec `{Collaborators}
    (addresses : list (option string)) :
  (validateAddresses addresses = Ok tt <->
   addresses <> [] /\ None ∉ addresses) /\
  (validateAddresses addresses = Throw MissingAddress <->
   addresses = [] \/ None ∈ addresses).
Proof.
  assert (Hloop : forall l : list (option string),
            (validateAddresses_loop l = Ok tt <-> None ∉ l) /\
            (validateAddresses_loop l = Throw MissingAddress <-> None ∈ l)).
  { induction l as [|[x|] l [IHok IHerr]]; simpl.
    - split; [split; [intros _ Hin; inversion Hin | reflexivity]|].
      split; [discriminate | intros Hin; inversion Hin].
    - rewrite IHok, IHerr, not_elem_of_cons, elem_of_cons.
      split; [split; [now split | now intros [_ ?]]|].
      split; [now right | now intros [?|?]].
    - split; [split; [discriminate | intros Hnot; destruct Hnot; left]|].
      split; [intros _; left | reflexivity]. }
  unfold validateAddresses. destruct addresses as [|a l].
  - simpl. split; [split; [discriminate | now intros [? _]]|].
    split; [now left | reflexivity].
  - rewrite bool_decide_eq_false_2 by discriminate.
    destruct (Hloop (a :: l)) as [Hok Herr]. rewrite Hok, Herr.
    split; [split; [now split | now intros [_ ?]]|].
    split; [now right | now intros [?|?]].
Qed.

(** [validateAddresses] accepts exactly the non-empty lists without a null
    element, and its only error is the missing-address error. *)
Theorem validateAddresses_accepts `{Collaborators}
    (addresses : list (option string)) :
  (validateAddresses addresses = Ok tt <->
   addresses <> [] /\ None ∉ addresses) /\
  (validateAddresses addresses = Throw MissingAddress <->
   addresses = [] \/ None ∈ addresses).
Proof. exact (validateAddresses_spec addresses). Qed.

(** The order of the checks of [inject]: an empty candidate list or a null
    element gives the missing-address error whatever the chain is; with
    acceptable candidates an empty chain name gives the missing-chain
    error. In both cases nothing has happened yet: the trace of events is
    unchanged. *)
Theorem inject_validation_order `{Collaborators} {disk : FileSystem}
    (this : Injector) (inputData : InputData) (tr : list Event) :
  (addresses inputData = [] \/ None ∈ addresses inputData ->
   inject this inputData tr = (Throw MissingAddress, tr)) /\
  (addresses inputData <> [] -> None ∉ addresses inputData ->
   chain inputData = "" ->
   inject this inputData tr = (Throw MissingChain, tr)).
Proof.
  unfold inject. split.
  - intros Hbad. unfold mbind at 1, M_bind at 1, lift at 1.
    now rewrite (proj2 (proj2 (validateAddresses_spec _)) Hbad).
  - intros Hne Hnull Hchain. unfold mbind at 1, M_bind at 1, lift at 1.
    rewrite (proj2 (proj1 (validateAddresses_spec _)) (conj Hne Hnull)).
    unfold mbind at 1, M_bind at 1, lift at 1.
    unfold validateChain. now rewrite Hchain.
Qed.

Lemma inject_validation_order_witness :
  inject (H := Demo.collaborators) (disk := Demo.file_system) Demo.injector
    {| repository := "repo"; chain := ""; addresses := [];
       files := [Demo.source]; inputData_bytecode := None |} []
  = (Throw MissingAddress, []) /\
  inject (H := Demo.collaborators) (disk := Demo.file_system) Demo.injector
    {| repository := "repo"; chain := ""; addresses := [Some "0xA"];
       files := [Demo.source]; inputData_bytecode := None |} []
  = (Throw MissingChain, []).
Proof.
  split.
  - apply (proj1 (inject_validation_order (H := Demo.collaborators)
                    (disk := Demo.file_system) Demo.injector
                    {| repository := "repo"; chain := ""; addresses := [];
                       files := [Demo.source]; inputData_bytecode := None |} [])).
    left. reflexivity.
  - apply (proj2 (inject_validation_order (H := Demo.collaborators)
                    (disk := Demo.file_system) Demo.injector
                    {| repository := "repo"; chain := "";
                       addresses := [Some "0xA"];
                       files := [Demo.source]; inputData_bytecode := None |} [])).
    + discriminate.
    + simpl. intros [Hin|Hin]%elem_of_cons; [discriminate | inversion Hin].
    + reflexivity.
Defined.

(** ** What the stores save *)

Lemma writes_not_saved (evs : list Event) :
  Forall is_not_saved evs -> writes evs = [].
Proof.
  induction 1 as [|e evs He _ IH]; [reflexivity|].
  destruct e; simpl in *; try contradiction; exact IH.
Qed.

Lemma bind_or_throw_some {A B : Type} (who : string) (a : A) (f : A -> M B)
    (tr : list Event) :
  (or_throw who (Some a) ≫= f) tr = f a tr.
Proof. reflexivity. Qed.

Lemma bind_lift_ok {A B : Type} (a : A) (f : A -> M B) (tr : list Event) :
  (lift (Ok a) ≫= f) tr = f a tr.
Proof. reflexivity. Qed.

Lemma metadataPath_of_throws `{Collaborators}
    (cborData : gmap string (list byte)) (e : Error) :
  metadataPath_of cborData = Throw e -> e = MetadataReferenceMissing.
Proof.
  unfold metadataPath_of. repeat (destruct (cborData !! _)); try discriminate.
  now intros [= <-].
Qed.

(** The two ways the perfect store goes: an error before any write, which
    is not the error of a write, or the list of its writes. *)
Lemma storePerfectMatchData_cases `{Collaborators} {disk : FileSystem}
    (repository chain address : string) (cr : RecompilationResult)
    (srcs : StringMap) (tr : list Event) :
  (exists e,
     (hexToBytes (deployedBytecode cr) = None \/
      (exists bytes, hexToBytes (deployedBytecode cr) = Some bytes /\
         (cborDecode bytes = None \/
          exists cborData, cborDecode bytes = Some cborData /\
            metadataPath_of cborData = Throw e))) /\
     ~ is_write_error e /\
     storePerfectMatchData repository chain address cr srcs tr = (Throw e, tr))
  \/
  (exists bytes cborData p,
     hexToBytes (deployedBytecode cr) = Some bytes /\
     cborDecode bytes = Some cborData /\
     metadataPath_of cborData = Ok p /\
     storePerfectMatchData repository chain address cr srcs tr
     = save_all (full_match_files repository chain address cr srcs p) tr).
Proof.
  unfold storePerfectMatchData.
  destruct (hexToBytes (deployedBytecode cr)) as [bytes|] eqn:Hb.
  2:{ left. exists (CollaboratorError "hexToBytes"). split; [now left|].
      split; [now intros []|reflexivity]. }
  rewrite bind_or_throw_some. cbv beta.
  destruct (cborDecode bytes) as [cborData|] eqn:Hc.
  2:{ left. exists (CollaboratorError "cborDecode"). split.
      - right. exists bytes. split; [reflexivity | now left].
      - split; [now intros [] | reflexivity]. }
  rewrite bind_or_throw_some. cbv beta.
  destruct (metadataPath_of cborData) as [p|e] eqn:Hp.
  2:{ left. exists e. split.
      - right. exists bytes. split; [reflexivity|]. right. now exists cborData.
      - split; [|reflexivity].
        rewrite (metadataPath_of_throws _ _ Hp). now intros []. }
  right. exists bytes, cborData, p. repeat split; try assumption.
  rewrite bind_lift_ok.
  unfold full_match_files, save_all. cbn [for_each]. unfold mbind, M_bind.
  destruct (save _ (metadata cr) tr) as [[[]|e] tr1]; [|reflexivity].
  destruct (save _ (metadata cr) tr1) as [[[]|e] tr2]; [|reflexivity].
  apply (for_each_save_all
           (fun sourcePath =>
              NodePath.join [repository; "contracts"; "full_match"; chain;
                             address; "sources"; sanitizedPath sourcePath])).
Qed.

(** When the trailer of the compiled code resolves to the content
    address [p], the perfect store has these writes to make, in this
    order: the metadata at the join of the root with [p], the metadata at
    the address path under [full_match], then each source under its
    sanitized name. It saves a leading part of that list: all of it when it
    returns, and the part before the first write that fails when it throws,
    the error being that of the failed write. On a disk that takes every
    write it returns. A throw with any other error has saved nothing. *)
Theorem storePerfectMatchData_saves `{Collaborators} {disk : FileSystem}
    (repository chain address : string) (cr : RecompilationResult)
    (srcs : StringMap) (tr : list Event) :
  (forall bytes cborData p,
     hexToBytes (deployedBytecode cr) = Some bytes ->
     cborDecode bytes = Some cborData ->
     metadataPath_of cborData = Ok p ->
     (exists r done rest,
        full_match_files repository chain address cr srcs p = done ++ rest /\
        storePerfectMatchData repository chain address cr srcs tr
        = (r, tr ++ saved_events_of done) /\
        match r with
        | Ok _ => rest = []
        | Throw e =>
            exists path content rest',
              rest = (path, content) :: rest' /\ e = WriteError path /\
              writable (tr ++ saved_events_of done) path content = false
        end) /\
     ((forall tr0 path content, writable tr0 path content = true) ->
      storePerfectMatchData repository chain address cr srcs tr
      = (Ok tt,
         tr ++ saved_events_of
                 (full_match_files repository chain address cr srcs p)))) /\
  (forall e tr',
     storePerfectMatchData repository chain address cr srcs tr = (Throw e, tr') ->
     ~ is_write_error e ->
     tr' = tr).
Proof.
  destruct (storePerfectMatchData_cases repository chain address cr srcs tr)
    as [(e & Hwhy & _ & Hrun)|(bytes & cborData & p & Hb & Hc & Hp & Hrun)];
    rewrite Hrun; split.
  - intros bytes cborData p Hb Hc Hp.
    destruct Hwhy as [Hn|(b' & Hb' & [Hn|(c' & Hc' & Hp')])]; congruence.
  - now intros e' tr' [= _ <-].
  - intros b' c' p' Hb' Hc' Hp'.
    assert (p' = p) as -> by congruence. split.
    + destruct (save_all_run
                  (full_match_files repository chain address cr srcs p) tr)
        as (r & done & rest & Heq & Hsave & Hr).
      now exists r, done, rest.
    + intros Hdisk. now apply save_all_ok.
  - intros e tr' Hthrow Hnw.
    destruct (save_all_run
                (full_match_files repository chain address cr srcs p) tr)
      as (r & done & rest & _ & Hsave & Hr).
    rewrite Hsave in Hthrow. injection Hthrow as -> <-.
    destruct Hr as (path & content & rest' & _ & -> & _). now destruct Hnw.
Qed.

Lemma storePerfectMatchData_saves_witness :
  storePerfectMatchData (H := Demo.collaborators) (disk := Demo.file_system)
    "repo" "1" "0xB"
    {| bytecode := "6000"; deployedBytecode := "0x60000000"; metadata := "{}" |}
    [("A.sol", "contract A {}")] []
  = (Ok tt,
     [] ++ saved_events_of
             (full_match_files "repo" "1" "0xB"
                {| bytecode := "6000"; deployedBytecode := "0x60000000";
                   metadata := "{}" |}
                [("A.sol", "contract A {}")] "/ipfs/1220")).
Proof.
  refine (proj2 (proj1 (storePerfectMatchData_saves (H := Demo.collaborators)
                          (disk := Demo.file_system) "repo" "1" "0xB"
                          {| bytecode := "6000"; deployedBytecode := "0x60000000";
                             metadata := "{}" |}
                          [("A.sol", "contract A {}")] [])
                   [Byte.x12; Byte.x20] {[ "ipfs" := [Byte.x12; Byte.x20] ]}
                   "/ipfs/1220" _ _ _) _).
  - vm_compute. reflexivity.
  - vm_compute. reflexivity.
  - vm_compute. reflexivity.
  - reflexivity.
Defined.

(** ** One turn of the orchestrator, and the whole run *)

Lemma read_events_scan `{Collaborators} (this : Injector) (chain a : string) :
  Forall is_scan_event (read_events this chain a).
Proof.
  unfold read_events, read_deployed, getBytecode, checksum. run_monad.
  destruct (chains this chain) as [web3|]; simpl; [|constructor].
  destruct (toChecksumAddress a) as [a'|]; simpl; [|constructor].
  destruct (eth_getCode web3 a'); repeat constructor.
Qed.

Lemma scan_behaves `{Collaborators} (this : Injector) (chain : string)
    (addrs : list (option string)) (compiled : string) :
  behaves is_scan_event (fun e => e = CollaboratorError "toChecksumAddress")
    (matchBytecodeToAddress this chain addrs compiled).
Proof.
  induction addrs as [|a rest IH]; intros tr.
  - exists (Ok {| address := None; status := None |}), [].
    rewrite app_nil_r. repeat split; [constructor | discriminate].
  - destruct (a ≫= toChecksumAddress) as [a'|] eqn:Ha.
    + destruct a as [x|]; [|discriminate]. simpl in Ha.
      rewrite (scan_step _ _ _ _ _ _ _ Ha). cbn zeta.
      assert (Hevs : Forall is_scan_event
                (read_events this chain a'
                   ++ [Compared (onChainCode this chain a') compiled])).
      { apply Forall_app. split; [apply read_events_scan | now repeat constructor]. }
      destruct (compareBytecodes _ compiled) as [s|].
      * eexists _, _. repeat split; [exact Hevs | discriminate].
      * destruct (IH (tr ++ read_events this chain a'
                         ++ [Compared (onChainCode this chain a') compiled]))
          as (r & evs & Hrun & Hall & Hthrow).
        exists r, ((read_events this chain a'
                     ++ [Compared (onChainCode this chain a') compiled]) ++ evs).
        rewrite Hrun, !app_assoc. repeat split; [|exact Hthrow].
        now apply Forall_app.
    + rewrite (scan_invalid _ _ _ _ _ _ Ha). exists (Throw (CollaboratorError
        "toChecksumAddress")), []. rewrite app_nil_r.
      repeat split; [constructor | now intros e [= <-]].
Qed.

(** What one turn has saved when it ends: nothing when it throws an error
    other than that of a failed write; when it returns, the match has an
    address and a status and the store has saved its whole list. *)
Lemma inject_source_outcome `{Collaborators} {disk : FileSystem}
    (this : Injector) (inputData : InputData) (source : Source)
    (tr tr' : list Event) (r : Result Match) :
  inject_source this inputData source tr = (r, tr') ->
  match r with
  | Throw e => ~ is_write_error e -> writes tr' = writes tr
  | Ok m =>
      (exists a s, m = {| address := Some a; status := Some s |}
                   /\ JS.truthy a = true) /\
      exists w ws, writes tr' = writes tr ++ w :: ws
  end.
Proof.
  unfold inject_source. unfold mbind at 1, M_bind at 1.
  destruct (recompile_behaves (source_metadata source) (solidity source) tr)
    as (r0 & cevs & Hrun & Hcevs & _).
  rewrite Hrun.
  assert (Hw1 : writes (tr ++ cevs) = writes tr).
  { rewrite writes_app. destruct (compiled_events _ Hcevs) as (_ & _ & ->).
    apply app_nil_r. }
  destruct r0 as [cr|e]; [|now intros [= <- <-]].
  unfold mbind at 1, M_bind at 1.
  set (phase := if JS.truthy_opt (inputData_bytecode inputData) then _ else _).
  assert (Hphase : behaves is_not_saved (fun _ => True) phase).
  { subst phase. destruct (JS.truthy_opt _).
    - apply behaves_bind.
      + unfold call_compareBytecodes. apply behaves_bind;
          [now apply behaves_emit | intros _; apply behaves_ret].
      + intros st. apply behaves_bind; [now apply behaves_or_throw|].
        intros a. apply behaves_ret.
    - eapply behaves_weaken; [| |apply scan_behaves]; [|tauto].
      now intros []. }
  destruct (Hphase (tr ++ cevs)) as (r1 & mevs & Hrun1 & Hmevs & _).
  rewrite Hrun1.
  assert (Hw2 : writes ((tr ++ cevs) ++ mevs) = writes tr).
  { rewrite writes_app, Hw1, (writes_not_saved _ Hmevs). apply app_nil_r. }
  destruct r1 as [m|e]; [|now intros [= <- <-]].
  destruct m as [[a|] st]; cbn [address status JS.truthy_opt andb];
    [|now intros [= <- <-]].
  destruct (JS.truthy a) eqn:Ha; cbn [andb]; [|now intros [= <- <-]].
  unfold default. cbn [from_option id].
  assert (Hplan : forall planned w ws r2 tr2,
            planned = w :: ws ->
            save_all planned ((tr ++ cevs) ++ mevs) = (r2, tr2) ->
            match r2 with
            | Ok _ => exists w' ws', writes tr2 = writes tr ++ w' :: ws'
            | Throw e => is_write_error e
            end).
  { intros planned w ws r2 tr2 Hne Hsave.
    destruct (save_all_run planned ((tr ++ cevs) ++ mevs))
      as (r3 & done & rest & Heq & Hsave' & Hr).
    rewrite Hsave in Hsave'. injection Hsave' as <- ->.
    destruct r2 as [[]|e].
    - subst rest. rewrite app_nil_r in Heq. subst done.
      rewrite writes_app, Hw2, writes_saved_events_of, Hne. now exists w, ws.
    - destruct Hr as (path & content & rest' & _ & -> & _). exact I. }
  destruct st as [[|]|].
  - rewrite bool_decide_eq_true_2 by reflexivity.
    unfold mbind at 1, M_bind at 1.
    destruct (storePerfectMatchData_cases (repository inputData)
                (chain inputData) a cr (solidity source) ((tr ++ cevs) ++ mevs))
      as [(e & _ & _ & Hst)|(bytes & cborData & p & _ & _ & _ & Hst)];
      rewrite Hst.
    + now intros [= <- <-].
    + destruct (save_all _ _) as [[[]|e] tr2] eqn:Hsave.
      * intros [= <- <-]. split; [now exists a, perfect|].
        exact (Hplan _ _ _ _ _ eq_refl Hsave).
      * intros [= <- <-] Hnw. destruct Hnw.
        exact (Hplan _ _ _ _ _ eq_refl Hsave).
  - rewrite bool_decide_eq_false_2 by discriminate.
    rewrite bool_decide_eq_true_2 by reflexivity.
    unfold mbind at 1, M_bind at 1. rewrite storePartialMatchData_plan.
    destruct (save_all _ _) as [[[]|e] tr2] eqn:Hsave.
    + intros [= <- <-]. split; [now exists a, partial|].
      exact (Hplan _ _ _ _ _ eq_refl Hsave).
    + intros [= <- <-] Hnw. destruct Hnw.
      exact (Hplan _ _ _ _ _ eq_refl Hsave).
  - rewrite !bool_decide_eq_false_2 by discriminate. now intros [= <- <-].
Qed.

(** One turn of the loop of [inject] saves only once it has a match:
    if it throws any error other than that of a failed write, at whatever
    stage, it has saved nothing; if it returns, the match has an address
    and a status, and something has been saved. *)
Theorem inject_source_saves_with_match `{Collaborators} {disk : FileSystem}
    (this : Injector) (inputData : InputData) (source : Source)
    (tr tr' : list Event) :
  (forall e,
     inject_source this inputData source tr = (Throw e, tr') ->
     ~ is_write_error e ->
     writes tr' = writes tr) /\
  (forall m,
     inject_source this inputData source tr = (Ok m, tr') ->
     (exists a s, m = {| address := Some a; status := Some s |}
                  /\ JS.truthy a = true) /\
     exists w ws, writes tr' = writes tr ++ w :: ws).
Proof.
  split.
  - intros e Hrun. exact (inject_source_outcome _ _ _ _ _ _ Hrun).
  - intros m Hrun. exact (inject_source_outcome _ _ _ _ _ _ Hrun).
Qed.

Lemma inject_source_saves_with_match_witness :
  (exists w ws,
     writes [Compiled "A.sol" "A"; GetCode "0xB";
             Compared (Some "0x60000000") "0x60000000";
             Saved "repo/ipfs/1220" "{}";
             Saved "repo/contracts/full_match/1/0xB/metadata.json" "{}";
             Saved "repo/contracts/full_match/1/0xB/sources/A.sol"
                   "contract A {}"]
     = writes [] ++ w :: ws) /\
  writes [Compiled "A.sol" "A"; GetCode "0xD"; Compared (Some "0x") "0x60000000"]
  = writes [].
Proof.
  pose (input := fun a => {| repository := "repo"; chain := "1";
                             addresses := [Some a]; files := [Demo.source];
                             inputData_bytecode := None |}).
  split.
  - refine (proj2 (proj2 (inject_source_saves_with_match
                            (H := Demo.collaborators) (disk := Demo.file_system)
                            Demo.injector (input "0xB") Demo.source [] _)
                     {| address := Some "0xB"; status := Some perfect |} _)).
    vm_compute. reflexivity.
  - refine (proj1 (inject_source_saves_with_match
                     (H := Demo.collaborators) (disk := Demo.file_system)
                     Demo.injector (input "0xD") Demo.source [] _)
              (NotFoundError [("A.sol", "A")] [Some "0xD"]) _ _).
    + vm_compute. reflexivity.
    + now intros [].
Defined.

Lemma inject_loop_ok `{Collaborators} {disk : FileSystem} (this : Injector)
    (inputData : InputData)
    (fs : list Source) (m0 m : Match) (tr tr' : list Event) :
  inject_loop this inputData fs m0 tr = (Ok m, tr') ->
  (fs = [] /\ m = m0 /\ tr' = tr) \/
  (exists source tr0,
     source ∈ fs /\ inject_source this inputData source tr0 = (Ok m, tr')).
Proof.
  revert m0 tr. induction fs as [|source rest IH]; intros m0 tr; simpl.
  - intros [= <- <-]. now left.
  - unfold mbind at 1, M_bind at 1.
    destruct (inject_source this inputData source tr) as [[m1|e] tr1] eqn:Hsrc;
      [|discriminate].
    intros Hrest. right. destruct (IH _ _ Hrest) as [(-> & -> & ->)|Hlater].
    + exists source, tr. split; [left | exact Hsrc].
    + destruct Hlater as (s & tr0 & Hin & Hrun). exists s, tr0.
      split; [now right | exact Hrun].
Qed.

(** A run of [inject] that returns gives the null match only for an
    empty list of files, and then without any event; for a non-empty list
    the returned match has an address and a status. A run over one source
    that throws any error other than that of a failed write has saved
    nothing. *)
Theorem inject_returns_stored_match `{Collaborators} {disk : FileSystem}
    (this : Injector) (inputData : InputData) (tr tr' : list Event) :
  (forall m,
     inject this inputData tr = (Ok m, tr') ->
     (files inputData = [] /\ m = {| address := None; status := None |}
      /\ tr' = tr) \/
     (files inputData <> [] /\
      exists a s, m = {| address := Some a; status := Some s |}
                  /\ JS.truthy a = true)) /\
  (forall e source,
     files inputData = [source] ->
     inject this inputData tr = (Throw e, tr') ->
     ~ is_write_error e ->
     writes tr' = writes tr).
Proof.
  unfold inject. split.
  - intros m. unfold mbind at 1, M_bind at 1, lift at 1.
    destruct (validateAddresses (addresses inputData)) as [[]|e]; [|discriminate].
    unfold mbind at 1, M_bind at 1, lift at 1.
    destruct (validateChain (chain inputData)) as [[]|e]; [|discriminate].
    intros Hloop. apply inject_loop_ok in Hloop as [(Hfs & -> & ->)|Hsrc].
    + now left.
    + right. destruct Hsrc as (source & tr0 & Hin & Hrun). split.
      * intros Hfs. rewrite Hfs in Hin. inversion Hin.
      * exact (proj1 (inject_source_outcome _ _ _ _ _ _ Hrun)).
  - intros e source Hfs. unfold mbind at 1, M_bind at 1, lift at 1.
    destruct (validateAddresses (addresses inputData)) as [[]|e0];
      [|now intros [= _ <-]].
    unfold mbind at 1, M_bind at 1, lift at 1.
    destruct (validateChain (chain inputData)) as [[]|e0];
      [|now intros [= _ <-]].
    rewrite Hfs. cbn [inject_loop]. unfold mbind at 1, M_bind at 1.
    destruct (inject_source this inputData source tr) as [[m|e1] tr1] eqn:Hsrc;
      [discriminate|].
    intros [= <- <-]. exact (inject_source_outcome _ _ _ _ _ _ Hsrc).
Qed.

Lemma inject_returns_stored_match_witness :
  writes [Compiled "A.sol" "A"; GetCode "0xD"; Compared (Some "0x") "0x60000000"]
  = writes [].
Proof.
  refine (proj2 (inject_returns_stored_match (H := Demo.collaborators)
                   (disk := Demo.file_system) Demo.injector
                   {| repository := "repo"; chain := "1";
                      addresses := [Some "0xD"]; files := [Demo.source];
                      inputData_bytecode := None |} [] _)
            (NotFoundError [("A.sol", "A")] [Some "0xD"]) Demo.source _ _ _).
  - vm_compute. reflexivity.
  - vm_compute. reflexivity.
  - now intros [].
Defined.

(** ** A chain that is not registered *)

(** On a chain without an entry in the registry, every candidate that is an
    address is compared as having no code and none is read: the scan makes
    one comparison per candidate and ends without a match. *)
Theorem unknown_chain_never_matches `{Collaborators} (this : Injector)
    (chain compiled : string) (addrs : list string) (tr : list Event) :
  chains this chain = None ->
  Forall (fun x => is_Some (toChecksumAddress x)) addrs ->
  matchBytecodeToAddress this chain (Some <$> addrs) compiled tr
  = (Ok {| address := None; status := None |},
     tr ++ map (fun _ => Compared None compiled) addrs).
Proof.
  intros Hchain Hall. revert tr.
  induction Hall as [|a addrs [a' Ha] _ IH]; intros tr.
  - simpl. now rewrite app_nil_r.
  - rewrite fmap_cons, (scan_step _ _ _ _ _ _ _ Ha). cbn zeta.
    assert (Hcode : onChainCode this chain a' = None).
    { unfold onChainCode, read_deployed. run_monad. now rewrite Hchain. }
    assert (Hevs : read_events this chain a' = []).
    { unfold read_events, read_deployed. run_monad. now rewrite Hchain. }
    rewrite Hcode, Hevs. cbn [compareBytecodes app].
    rewrite IH. simpl. now rewrite <- app_assoc.
Qed.

Lemma unknown_chain_never_matches_witness :
  matchBytecodeToAddress (H := Demo.collaborators) Demo.injector "5"
    (Some <$> ["0xA"; "0xB"]) "0x60000000" []
  = (Ok {| address := None; status := None |},
     [] ++ map (fun _ => Compared None "0x60000000") ["0xA"; "0xB"]).
Proof.
  apply (unknown_chain_never_matches (H := Demo.collaborators)).
  - reflexivity.
  - repeat constructor; eexists; reflexivity.
Defined.

(** ** The compilation target *)

Lemma fold_left_last {A : Type} (l : list A) (d x : A) :
  fold_left (fun _ kv => kv) (l ++ [x]) d = x.
Proof. now rewrite fold_left_app. Qed.

(** [reformatMetadata] settles on the last property of [compilationTarget]:
    it returns a file with its contract exactly when that pair is the last
    one and the contract name is not empty, and throws exactly when the
    object is empty or its last contract name is the empty string. Earlier
    properties are not looked at. *)
Theorem reformatMetadata_last_target `{Collaborators} (md : Metadata) :
  (forall f c,
     reformatMetadata md = Ok (f, c) <->
     (exists pre, compilationTarget md = pre ++ [(f, c)]) /\ c <> "") /\
  (reformatMetadata md = Throw TargetUndetermined <->
   compilationTarget md = [] \/
   exists pre f, compilationTarget md = pre ++ [(f, "")]).
Proof.
  unfold reformatMetadata.
  destruct (compilationTarget md) as [|[f0 c0] l _] using rev_ind.
  - simpl. split.
    + intros f c. split; [discriminate|]. intros [[pre Hpre] _].
      now destruct pre.
    + split; [now left | reflexivity].
  - rewrite fold_left_last. split.
    + intros f c. case_bool_decide as Hc.
      * split; [discriminate|]. intros [[pre Hpre] Hne].
        apply app_inj_tail in Hpre as [_ [= <- <-]]. contradiction.
      * split.
        -- intros [= <- <-]. split; [now exists l | exact Hc].
        -- intros [[pre Hpre] _]. apply app_inj_tail in Hpre as [_ [= <- <-]].
           reflexivity.
    + case_bool_decide as Hc.
      * subst c0. split; [|reflexivity]. intros _. right. now exists l, f0.
      * split; [discriminate|]. intros [Hnil|(pre & f & Hpre)].
        -- now destruct l.
        -- apply app_inj_tail in Hpre as [_ [= _ Hc0]]. contradiction.
Qed.

(** ** Metadata selection *)

Section Selection.

Context {Json : Type}.
Variable JSON_parse : string -> option Json.
Variable language_of : Json -> option string.

Lemma select_file_fold (files : list string) (acc : list Json) :
  fold_left (select_file JSON_parse language_of) files acc
  = acc ++ omap (is_metadata JSON_parse language_of) files.
Proof.
  revert acc. induction files as [|file rest IH]; intros acc; simpl.
  - now rewrite app_nil_r.
  - rewrite IH. unfold select_file, is_metadata. simpl.
    destruct (JSON_parse file) as [m|]; simpl; [|reflexivity].
    case_bool_decide; [now rewrite <- app_assoc | reflexivity].
Qed.

Lemma findMetadataFiles_spec (files : list string) :
  let selected := omap (is_metadata JSON_parse language_of) files in
  (selected = [] ->
   findMetadataFiles JSON_parse language_of files = inl MetadataFileNotFound) /\
  (selected <> [] ->
   findMetadataFiles JSON_parse language_of files = inr selected) /\
  Forall (fun m => language_of m = Some "Solidity") selected /\
  (forall pre x post,
     files = pre ++ post ->
     is_metadata JSON_parse language_of x = None ->
     findMetadataFiles JSON_parse language_of (pre ++ x :: post)
     = findMetadataFiles JSON_parse language_of files).
Proof.
  intros selected. unfold findMetadataFiles.
  rewrite select_file_fold. cbn [app]. fold selected.
  split; [|split; [|split]].
  - intros ->. reflexivity.
  - intros Hne. destruct selected; [contradiction | reflexivity].
  - subst selected. induction files as [|file rest IH]; [constructor|].
    simpl. unfold is_metadata at 1. destruct (JSON_parse file) as [m|];
      simpl; [|exact IH].
    case_bool_decide; [now constructor | exact IH].
  - intros pre x post -> Hx. rewrite select_file_fold. cbn [app].
    subst selected. rewrite !omap_app. simpl. now rewrite Hx.
Qed.

(** [findMetadataFiles] returns, in upload order, the documents of exactly
    the files that parse and declare the language Solidity, and throws
    exactly when there is no such file. A file that does not parse, or
    parses to another language, makes no difference wherever it stands in
    the upload. *)
Theorem findMetadataFiles_selects (files : list string) :
  let selected := omap (is_metadata JSON_parse language_of) files in
  (selected = [] ->
   findMetadataFiles JSON_parse language_of files = inl MetadataFileNotFound) /\
  (selected <> [] ->
   findMetadataFiles JSON_parse language_of files = inr selected) /\
  Forall (fun m => language_of m = Some "Solidity") selected /\
  (forall pre x post,
     files = pre ++ post ->
     is_metadata JSON_parse language_of x = None ->
     findMetadataFiles JSON_parse language_of (pre ++ x :: post)
     = findMetadataFiles JSON_parse language_of files).
Proof. exact (findMetadataFiles_spec files). Qed.

End Selection.

(** With a parser that reads the text [{sol}] as a Solidity document and
    [{vy}] as a Vyper one, and fails on anything else: the Solidity
    document is selected and the two other files are ignored. *)
Lemma findMetadataFiles_selects_witness :
  let parse := fun s : string =>
    if bool_decide (s = "{sol}") then Some "Solidity"
    else if bool_decide (s = "{vy}") then Some "Vyper" else None in
  findMetadataFiles parse Some ["contract A {}"; "{vy}"; "{sol}"]
  = inr ["Solidity"].
Proof.
  intros parse.
  apply (proj1 (proj2 (findMetadataFiles_selects parse Some
                         ["contract A {}"; "{vy}"; "{sol}"]))).
  vm_compute. discriminate.
Defined.

(** ** The legacy pipeline *)

Section LegacyPipeline.

Context `{Collaborators}.
Context {disk : FileSystem}.
Variable getBytecodeWithoutMetadata : string -> string.
Variable getBytecode : Web3 -> string -> M (option string).
Variable JSON_parse : string -> option Metadata.
Variable language_of : Metadata -> option string.
Variable recompile : Metadata -> SourcesObject -> M RecompilationResult.
Variable member_text : string -> option string.
Variable this : Injector.
Variables repository chain : string.
Variable addresses : list (option string).
Variable files : list string.

Let legacy_inject :=
  LegacyInjector.inject getBytecodeWithoutMetadata getBytecode JSON_parse
    language_of recompile member_text this repository chain addresses files.

Let legacy_turn :=
  LegacyInjector.inject_metadata getBytecodeWithoutMetadata getBytecode
    recompile member_text this repository chain addresses files.

Let legacy_loop :=
  LegacyInjector.inject_loop getBytecodeWithoutMetadata getBytecode recompile
    member_text this repository chain addresses files.

Lemma legacy_turn_saved (md : Metadata) (saved saved' : list string)
    (tr tr' : list Event) :
  legacy_turn md saved tr = (Ok saved', tr') ->
  exists a, saved' = saved ++ [a] /\ JS.truthy a = true.
Proof.
  unfold legacy_turn, LegacyInjector.inject_metadata.
  unfold mbind at 1, M_bind at 1, lift at 1.
  destruct (rearrangeSources md files) as [srcs|e]; [|discriminate].
  unfold mbind at 1, M_bind at 1.
  destruct (recompile md srcs tr) as [[cr|e] tr1]; [|discriminate].
  unfold mbind at 1, M_bind at 1.
  destruct (Legacy.matchBytecodeToAddress _ _ _ _ _ _ tr1) as [[m|e] tr2];
    [|discriminate].
  destruct m as [[a|] st]; cbn [address status JS.truthy_opt andb];
    [|discriminate].
  destruct (JS.truthy a) eqn:Ha; cbn [andb]; [|discriminate].
  unfold default. cbn [from_option id].
  destruct (bool_decide (st = Some perfect)).
  - unfold mbind at 1, M_bind at 1.
    destruct (LegacyInjector.storePerfectMatchData _ _ _ _ _ _ tr2) as [[[]|e] tr3];
      [|discriminate].
    intros [= <- _]. now exists a.
  - destruct (bool_decide (st = Some partial)); [|discriminate].
    unfold mbind at 1, M_bind at 1.
    destruct (LegacyInjector.storePartialMatchData _ _ _ _ _ _ tr2) as [[[]|e] tr3];
      [|discriminate].
    intros [= <- _]. now exists a.
Qed.

Lemma legacy_loop_saved (mds : list Metadata) (saved saved' : list string)
    (tr tr' : list Event) :
  legacy_loop mds saved tr = (Ok saved', tr') ->
  exists new,
    saved' = saved ++ new /\ List.length new = List.length mds /\
    Forall (fun a => JS.truthy a = true) new.
Proof.
  revert saved tr. induction mds as [|md rest IH]; intros saved tr.
  - intros [= <- _]. exists []. now rewrite app_nil_r.
  - unfold legacy_loop. cbn [LegacyInjector.inject_loop].
    unfold mbind at 1, M_bind at 1.
    fold (legacy_turn md saved tr).
    destruct (legacy_turn md saved tr) as [[saved1|e] tr1] eqn:Hturn;
      [|discriminate].
    destruct (legacy_turn_saved _ _ _ _ _ Hturn) as (a & -> & Ha).
    intros Hrest. destruct (IH _ _ Hrest) as (new & -> & Hlen & Hall).
    exists (a :: new). rewrite <- app_assoc. repeat split.
    + simpl. now rewrite Hlen.
    + now constructor.
Qed.

(** The order of the legacy pipeline. The candidate list is checked first:
    when it is empty or holds a null, the missing-address error is thrown.
    With acceptable candidates and chain, an upload without any Solidity
    metadata file ends in the selection error. When the sources of the
    first selected metadata file cannot be assembled, the error of the
    assembly is thrown before the compiler is called. In the three cases
    no event has happened. *)
Theorem legacy_inject_order (tr : list Event) :
  (addresses = [] \/ None ∈ addresses ->
   legacy_inject tr = (LegacyInjector.Threw MissingAddress, tr)) /\
  (validateAddresses addresses = Ok tt -> validateChain chain = Ok tt ->
   omap (is_metadata JSON_parse language_of) files = [] ->
   legacy_inject tr = (LegacyInjector.ThrewSelection MetadataFileNotFound, tr)) /\
  (forall md rest e,
     validateAddresses addresses = Ok tt -> validateChain chain = Ok tt ->
     omap (is_metadata JSON_parse language_of) files = md :: rest ->
     rearrangeSources md files = Throw e ->
     legacy_inject tr = (LegacyInjector.Threw e, tr)).
Proof.
  unfold legacy_inject, LegacyInjector.inject. split; [|split].
  - intros Hbad.
    now rewrite (proj2 (proj2 (validateAddresses_spec _)) Hbad).
  - intros -> -> Hnone.
    now rewrite (proj1 (findMetadataFiles_spec _ _ files) Hnone).
  - intros md rest e -> -> Hsel Hthrow.
    rewrite (proj1 (proj2 (findMetadataFiles_spec JSON_parse language_of files)))
      by now rewrite Hsel.
    rewrite Hsel. cbn [LegacyInjector.inject_loop].
    unfold mbind at 1, M_bind at 1.
    unfold LegacyInjector.inject_metadata.
    unfold mbind at 1, M_bind at 1, lift at 1. now rewrite Hthrow.
Qed.

(** A legacy run that returns has saved one address for each selected
    metadata file, and none of them is an empty string. *)
Theorem legacy_inject_saved_addresses (tr tr' : list Event)
    (savedAddresses : list string) :
  legacy_inject tr = (LegacyInjector.Returned savedAddresses, tr') ->
  List.length savedAddresses
  = List.length (omap (is_metadata JSON_parse language_of) files) /\
  omap (is_metadata JSON_parse language_of) files <> [] /\
  Forall (fun a => JS.truthy a = true) savedAddresses.
Proof.
  unfold legacy_inject, LegacyInjector.inject.
  destruct (validateAddresses addresses) as [[]|e]; [|discriminate].
  destruct (validateChain chain) as [[]|e]; [|discriminate].
  destruct (omap (is_metadata JSON_parse language_of) files) as [|md rest] eqn:Hsel.
  - now rewrite (proj1 (findMetadataFiles_spec _ _ files) Hsel).
  - rewrite (proj1 (proj2 (findMetadataFiles_spec JSON_parse language_of files)))
      by now rewrite Hsel.
    rewrite Hsel.
    fold (legacy_loop (md :: rest) [] tr).
    destruct (legacy_loop (md :: rest) [] tr) as [[saved|e] tr1] eqn:Hloop;
      [|discriminate].
    intros [= <- _].
    destruct (legacy_loop_saved _ _ _ _ _ Hloop) as (new & -> & Hlen & Hall).
    now repeat split.
Qed.

End LegacyPipeline.

(** On the demonstration chain: an upload without metadata ends in the
    selection error, and one whose declared source is absent ends in the
    not-found error, both without any event. *)
Lemma legacy_inject_order_witness :
  DemoLegacy.inject Demo.injector "repo" "1" [Some "0xA"] ["contract A {}"] []
  = (LegacyInjector.ThrewSelection MetadataFileNotFound, []) /\
  DemoLegacy.inject Demo.injector "repo" "1" [Some "0xA"]
    ["{sol}"; "contract B {}"] []
  = (LegacyInjector.Threw (SourceNotFound "A.sol" "0xcontract A {}"), []).
Proof.
  split.
  - apply (proj1 (proj2 (legacy_inject_order (H := Demo.collaborators)
                           (disk := Demo.file_system) trimMetadata
                           (getBytecode_as_imported (H := Demo.collaborators))
                           DemoLegacy.parse DemoLegacy.language
                           (fun metadata o =>
                              recompile (H := Demo.collaborators) metadata
                                (DemoLegacy.texts o))
                           (fun _ => None) Demo.injector
                           "repo" "1" [Some "0xA"] ["contract A {}"] [])));
      vm_compute; reflexivity.
  - apply (proj2 (proj2 (legacy_inject_order (H := Demo.collaborators)
                           (disk := Demo.file_system) trimMetadata
                           (getBytecode_as_imported (H := Demo.collaborators))
                           DemoLegacy.parse DemoLegacy.language
                           (fun metadata o =>
                              recompile (H := Demo.collaborators) metadata
                                (DemoLegacy.texts o))
                           (fun _ => None) Demo.injector
                           "repo" "1" [Some "0xA"] ["{sol}"; "contract B {}"] []))
             Demo.descriptor []);
      vm_compute; reflexivity.
Defined.

Lemma legacy_inject_saved_addresses_witness :
  List.length ["0xA"]
  = List.length (omap (is_metadata DemoLegacy.parse DemoLegacy.language)
                      ["{sol}"; "contract A {}"]) /\
  omap (is_metadata DemoLegacy.parse DemoLegacy.language)
       ["{sol}"; "contract A {}"] <> [] /\
  Forall (fun a => JS.truthy a = true) ["0xA"].
Proof.
  apply (legacy_inject_saved_addresses (H := Demo.collaborators)
           (disk := Demo.file_system) trimMetadata
           (getBytecode_as_imported (H := Demo.collaborators))
           DemoLegacy.parse DemoLegacy.language
           (fun metadata o =>
              recompile (H := Demo.collaborators) metadata (DemoLegacy.texts o))
           (fun _ => None) Demo.injector
           "repo" "1" [Some "0xD"; Some "0xA"] ["{sol}"; "contract A {}"] []
           [Compiled "A.sol" "A"; GetCode "0xD"; GetCode "0xA";
            Saved "repo/partial_matches/1/0xA/metadata.json" "{}";
            Saved "repo/partial_matches/1/0xA/sources/A.sol" "contract A {}"]).
  vm_compute. reflexivity.
Defined.

(** ** The partial store and the digests of assembled sources *)

(** The partial store has one write more to make than there are
    sources: the metadata at the address path under [partial_match], then
    each source under its sanitized name, in the order of the source set.
    It saves a leading part of that list: all of it when it returns, and
    the part before the first write that fails when it throws; it throws no
    error but that of the failed write. On a disk that takes every write it
    returns. *)
Theorem storePartialMatchData_writes {disk : FileSystem}
    (repository chain address : string)
    (cr : RecompilationResult) (srcs : StringMap) (tr : list Event) :
  (exists r done rest tr',
     partial_match_files repository chain address cr srcs = done ++ rest /\
     storePartialMatchData repository chain address cr srcs tr = (r, tr') /\
     writes tr' = writes tr ++ done /\
     match r with
     | Ok _ => rest = []
     | Throw e =>
         exists path content rest',
           rest = (path, content) :: rest' /\ e = WriteError path
     end) /\
  ((forall tr0 path content, writable tr0 path content = true) ->
   exists tr',
     storePartialMatchData repository chain address cr srcs tr = (Ok tt, tr') /\
     writes tr'
     = writes tr ++ partial_match_files repository chain address cr srcs).
Proof.
  rewrite storePartialMatchData_plan. split.
  - destruct (save_all_run
                (partial_match_files repository chain address cr srcs) tr)
      as (r & done & rest & Heq & Hsave & Hr).
    exists r, done, rest, (tr ++ saved_events_of done).
    split; [exact Heq|]. split; [exact Hsave|].
    split; [now rewrite writes_app, writes_saved_events_of|].
    destruct r as [[]|e]; [exact Hr|].
    destruct Hr as (path & content & rest' & -> & -> & _).
    now exists path, content, rest'.
  - intros Hdisk. rewrite (save_all_ok _ _ Hdisk). eexists. split; [reflexivity|].
    now rewrite writes_app, writes_saved_events_of.
Qed.

Lemma storePartialMatchData_writes_witness :
  exists tr',
    storePartialMatchData (disk := Demo.file_system) "repo" "1" "0xA"
      {| bytecode := "6000"; deployedBytecode := "0x60000000"; metadata := "{}" |}
      [("A.sol", "contract A {}")] [] = (Ok tt, tr') /\
    writes tr'
    = writes []
      ++ partial_match_files "repo" "1" "0xA"
           {| bytecode := "6000"; deployedBytecode := "0x60000000";
              metadata := "{}" |}
           [("A.sol", "contract A {}")].
Proof.
  apply (proj2 (storePartialMatchData_writes (disk := Demo.file_system)
                  "repo" "1" "0xA"
                  {| bytecode := "6000"; deployedBytecode := "0x60000000";
                     metadata := "{}" |}
                  [("A.sol", "contract A {}")] [])).
  reflexivity.
Defined.

Lemma resolve_source_digest `{Collaborators} (files : list string)
    (fileName : string) (entry : SourceEntry) (v : Content) :
  is_prototype_member (se_keccak256 entry) = false ->
  resolve_source (storeByHash files) fileName entry = Ok v ->
  exists c, v = Text c /\ keccak256 c = se_keccak256 entry /\ JS.truthy c = true.
Proof.
  intros Hord. unfold resolve_source.
  assert (Hlookup :
            match read_property (storeByHash files) (se_keccak256 entry) with
            | Some c' => if content_truthy c' then Ok c'
                         else Throw (SourceNotFound fileName (se_keccak256 entry))
            | None => Throw (SourceNotFound fileName (se_keccak256 entry))
            end = Ok v ->
            exists c, v = Text c /\ keccak256 c = se_keccak256 entry
                      /\ JS.truthy c = true).
  { unfold read_property.
    destruct (storeByHash files !! se_keccak256 entry) as [c'|] eqn:Hl.
    - simpl. destruct (JS.truthy c') eqn:Ht; [|discriminate]. intros [= <-].
      apply storeByHash_fold_some in Hl as [(_ & Hk & _)|Hl];
        [now exists c' | now rewrite lookup_empty in Hl].
    - now rewrite Hord. }
  destruct (se_content entry) as [inline|]; simpl.
  - destruct (JS.truthy inline) eqn:Ht.
    + case_bool_decide as Hk; simpl; [|discriminate]. rewrite Ht.
      intros [= <-]. now exists inline.
    + simpl. exact Hlookup.
  - exact Hlookup.
Qed.

(** The guarantee of the assembly for a descriptor of the ordinary
    kind, in which no file is named [__proto__] and no declared digest is
    the name of a member of [Object.prototype], without any condition on
    the upload: the object that [rearrangeSources] returns has exactly the
    declared file names as its properties, and every one of them reads
    back a text that is not empty and has the digest the descriptor
    declares for it. *)
Theorem rearrangeSources_digests `{Collaborators} (md : Metadata)
    (files : list string) (out : SourcesObject) :
  NoDup (sources md).*1 ->
  Forall ordinary_entry (sources md) ->
  rearrangeSources md files = Ok out ->
  (own_sources out).*1 = (sources md).*1 /\
  forall f e, (f, e) ∈ sources md ->
    exists c, get_source (own_sources out) f = Some (Text c) /\
              keccak256 c = se_keccak256 e /\ JS.truthy c = true.
Proof.
  intros Hnd Hord Hout. unfold rearrangeSources in Hout.
  destruct (rearrange_loop_ok _ _ [] out Hnd (ordinary_entries_names _ Hord) Hout)
    as (new & -> & Hall).
  simpl. clear Hout. revert Hnd Hord.
  induction Hall as [|d o l l' [Hname Hres] _ IH]; intros Hnd Hord.
  - split; [reflexivity|]. intros f e Hin. inversion Hin.
  - rewrite fmap_cons in Hnd. apply NoDup_cons in Hnd as [Hfresh Hnd].
    apply Forall_cons in Hord as [[_ Hd] Hord].
    destruct (IH Hnd Hord) as [Hkeys Hget]. split.
    + rewrite !fmap_cons. now f_equal.
    + intros f e Hin. destruct o as [k v]. simpl in Hname, Hres |- *. subst k.
      apply elem_of_cons in Hin as [<-|Hin].
      * simpl in Hd.
        destruct (resolve_source_digest files f e v Hd Hres) as (c & -> & Hk & Ht).
        exists c. rewrite bool_decide_eq_true_2 by reflexivity. now repeat split.
      * rewrite bool_decide_eq_false_2; [now apply Hget|].
        intros Heq. apply Hfresh. rewrite Heq.
        apply list_elem_of_fmap. now exists (f, e).
Qed.

Lemma rearrangeSources_digests_witness :
  [("A.sol", Text "contract A {}")].*1 = (sources Demo.descriptor).*1 /\
  forall f e, (f, e) ∈ sources Demo.descriptor ->
    exists c, get_source [("A.sol", Text "contract A {}")] f = Some (Text c) /\
              keccak256 (Collaborators := Demo.collaborators) c = se_keccak256 e
              /\ JS.truthy c = true.
Proof.
  apply (rearrangeSources_digests (H := Demo.collaborators) Demo.descriptor
           ["unused"; "contract A {}"]
           {| own_sources := [("A.sol", Text "contract A {}")];
              prototype := None |}).
  - repeat constructor. intros Hin. inversion Hin.
  - simpl. constructor; [|constructor].
    split; [discriminate | vm_compute; reflexivity].
  - vm_compute. reflexivity.
Defined.

Lemma validateAddresses_accepts_witness :
  validateAddresses [Some "0xA"; Some "0xB"] = Ok tt.
Proof.
  apply (proj1 (validateAddresses_accepts (H := Demo.collaborators)
                  [Some "0xA"; Some "0xB"])).
  split; [discriminate|].
  intros [Hin|[Hin|Hin]%elem_of_cons]%elem_of_cons;
    [discriminate | discriminate | inversion Hin].
Defined.

Lemma reformatMetadata_last_target_witness :
  reformatMetadata
    {| compiler_version := "0.6.0";
       compilationTarget := [("A.sol", "A"); ("B.sol", "B")];
       sources := [] |}
  = Ok ("B.sol", "B").
Proof.
  apply (proj1 (reformatMetadata_last_target (H := Demo.collaborators) _)
           "B.sol" "B").
  split; [now exists [("A.sol", "A")] | discriminate].
Defined.
